(** * PyABM population synthesis: [population.py]

    A shallow embedding of [population.py] (class [Population] with
    [_proportional_fit], [_rand_assignment], [_get_assignments],
    [add_household] and [create_households], and the entity classes
    [Household], [Adult] and [Child]), followed by the properties of the
    proportional fitter, the assignment sampler and the population builder.

    Conventions of the embedding:
    - a numpy [float64] is a primitive binary64 [float]; its operations are
      the IEEE 754 ones, so a division by zero yields an infinity or a NaN
      and raises nothing (numpy's default error state only warns);
    - a Python [int] is a [Z];
    - a [dict] is a [gmap]; [items()] and [values()] enumerate it in the
      order of [map_to_list] (CPython's order is equally unspecified);
    - an exception is a value of [exn]; code that can raise returns a
      [result]; an [assert] is executed (the interpreter does not run with
      [-O]);
    - [xrange(n)] is taken for any [n], also beyond the C long that CPython
      accepts there (household sizes and cell counts are far below);
    - the objects the methods mutate live in a [world], threaded through the
      monad [M]; a [while] loop takes a fuel argument and returns [None] when
      the fuel runs out before the loop exits. *)

From stdpp Require Import base option list gmap strings pretty sorting.
From Stdlib Require Import ZArith Lia Floats.

Local Open Scope Z_scope.

(** ** Python values, exceptions and results *)

Inductive exn :=
| AssertionError (msg : string)
| StopIteration
| KeyError
| IndexError
| ValueError
| OverflowError.

Inductive result (A : Type) :=
| Ok (a : A)
| Raise (e : exn).
Arguments Ok {A} a.
Arguments Raise {A} e.

(** ** numpy arrays and float64 arithmetic *)

Module Np.

(** A one-dimensional array is an [int64] array ([np.array] of a non-empty
    list of Python ints that fit 64 bits) or a [float64] array. *)
Inductive ndarray1 :=
| IntArray (a : list Z)
| FloatArray (a : list float).

(** A two-dimensional [float64] array, as the list of its rows. *)
Abbreviation ndarray2 := (list (list float)).

Inductive scalar :=
| IntScalar (z : Z)
| FloatScalar (f : float).

Definition size (a : ndarray1) : nat :=
  match a with IntArray l => length l | FloatArray l => length l end.

(** Two's complement wrap-around of int64 arithmetic. *)
Definition wrap64 (z : Z) : Z := (z + 2 ^ 63) `mod` 2 ^ 64 - 2 ^ 63.

(** int64 to float64: round to nearest, ties to even, which is what
    [of_uint63] does on the magnitude. *)
Definition float_of_int64 (z : Z) : float :=
  if z =? - 2 ^ 63 then (- (of_uint63 (Uint63.of_Z (2 ^ 62)) * 2))%float
  else if z <? 0 then (- of_uint63 (Uint63.of_Z (- z)))%float
  else of_uint63 (Uint63.of_Z z).

(** The float64 view of an array, as taken by a mixed int/float operation. *)
Definition to_float64 (a : ndarray1) : list float :=
  match a with
  | IntArray l => float_of_int64 <$> l
  | FloatArray l => l
  end.

(** [a.sum()] of floats, adding left to right from [0.0]. numpy adds a long
    axis in blocks, which changes the rounding only, and starts from the
    first item, which changes the sign of a sum of negative zeros only; no
    result below depends on either. *)
Definition fsum (l : list float) : float := foldl PrimFloat.add 0%float l.

(** [a.sum()] of a one-dimensional array. *)
Definition sum1 (a : ndarray1) : scalar :=
  match a with
  | IntArray l => IntScalar (wrap64 (foldl Z.add 0 l))
  | FloatArray l => FloatScalar (fsum l)
  end.

Definition float_of_scalar (s : scalar) : float :=
  match s with
  | IntScalar z => float_of_int64 z
  | FloatScalar f => f
  end.

(** [x == y] on numpy scalars. *)
Definition scalar_eqb (x y : scalar) : bool :=
  match x, y with
  | IntScalar a, IntScalar b => a =? b
  | _, _ => (float_of_scalar x =? float_of_scalar y)%float
  end.

(** [table.sum(1)]: the sum of each row. *)
Definition sum_axis1 (table : ndarray2) : list float := fsum <$> table.

(** [table.sum(0)]: the sum of each of the [n_col] columns. *)
Definition sum_axis0 (n_col : nat) (table : ndarray2) : list float :=
  (fun j => fsum ((fun row => default 0%float (row !! j)) <$> table)) <$> seq 0 n_col.

(** [table.sum()]: the sum of all cells, row by row. *)
Definition sum_all (table : ndarray2) : float := fsum (concat table).

(** [np.array(l)] of a list of Python ints. *)
Definition array (l : list Z) : ndarray1 :=
  match l with
  | [] => FloatArray []
  | _ => IntArray l
  end.

End Np.

(** [round(x)] of Python 2 followed by [int(...)]: the nearest integer, a
    tie going away from zero. [int] refuses a NaN with [ValueError] and an
    infinity with [OverflowError]. *)
Definition int_round (x : float) : result Z :=
  match Prim2SF x with
  | S754_nan => Raise ValueError
  | S754_infinity _ => Raise OverflowError
  | S754_zero _ => Ok 0
  | S754_finite s m e =>
      let mag := if 0 <=? e then Z.pos m * 2 ^ e
                 else (Z.pos m + 2 ^ (- e - 1)) `div` 2 ^ (- e) in
      Ok (if s then - mag else mag)
  end.

(** ** The proportional fitter: [Population._proportional_fit] *)

(** The default [tolerance=0.01]: the double nearest to 0.01. *)
Definition default_tolerance : float := 0x1.47ae147ae147bp-7%float.

Definition unequal_subsums : string :=
  "Row subsum and column subsum are not equal.".

(** Lines 31-35: [np.ones([n_row, n_col])] with the cells below the
    diagonal ([i > j]) set to [0.0]. *)
Definition initial_table (n_row n_col : nat) : Np.ndarray2 :=
  (fun i => (fun j => if decide (j < i)%nat then 0%float else 1%float) <$> seq 0 n_col)
    <$> seq 0 n_row.

(** Line 40: [row_sum * (table / table.sum(1).reshape(n_row, 1))]. *)
Definition row_fit (row_sum : list float) (table : Np.ndarray2) : Np.ndarray2 :=
  zip_with (fun r '(row, s) => (fun t => r * (t / s))%float <$> row)
           row_sum (zip table (Np.sum_axis1 table)).

(** Line 42: [col_sum * (table / table.sum(0).reshape(1, n_col))]. *)
Definition col_fit (col_sum : list float) (table : Np.ndarray2) : Np.ndarray2 :=
  let sums := Np.sum_axis0 (length col_sum) table in
  (fun row => zip_with (fun c '(t, s) => c * (t / s))%float col_sum (zip row sums))
    <$> table.

(** Lines 44-45: the sum of the squared differences between the row sums
    of the table and [row_sum]. *)
Definition row_error (row_sum : list float) (table : Np.ndarray2) : float :=
  let row_diff := zip_with PrimFloat.sub (Np.sum_axis1 table) row_sum in
  Np.fsum (zip_with PrimFloat.mul row_diff row_diff).

(** One pass through the body of the [while] loop (lines 40-42). *)
Definition fit_step (row_sum col_sum : list float) (table : Np.ndarray2) : Np.ndarray2 :=
  col_fit col_sum (row_fit row_sum table).

(** Lines 38-46: [while row_err > tolerance: ...; return table]. [None]
    means the loop is still running when the fuel is spent. *)
Fixpoint fit_loop (fuel : nat) (row_sum col_sum : list float) (tolerance : float)
    (table : Np.ndarray2) (row_err : float) : option Np.ndarray2 :=
  if (tolerance <? row_err)%float then
    match fuel with
    | O => None
    | S fuel' =>
        let table' := fit_step row_sum col_sum table in
        fit_loop fuel' row_sum col_sum tolerance table' (row_error row_sum table')
    end
  else Some table.

Definition _proportional_fit (fuel : nat) (row_sum col_sum : Np.ndarray1)
    (tolerance : float) : option (result Np.ndarray2) :=
  let n_row := Np.size row_sum in
  let n_col := Np.size col_sum in
  if Np.scalar_eqb (Np.sum1 row_sum) (Np.sum1 col_sum) then
    Ok <$> fit_loop fuel (Np.to_float64 row_sum) (Np.to_float64 col_sum) tolerance
             (initial_table n_row n_col) infinity
  else Some (Raise (AssertionError unequal_subsums)).

(** ** The store *)

(** Locations, activities and program labels are identities; an activity
    program is a tuple of activities. *)
Abbreviation location := nat.
Abbreviation activity := nat.
Abbreviation program := (list nat).
Abbreviation label := nat.

(** A reference to a [Household] object: its index in the heap. *)
Abbreviation href := nat.

(** [Adult] and [Child] ([Individual.__init__] sets [id] and [residence];
    its [transitions] and [states] start empty and are never touched here). *)
Record Adult := mkAdult {
  ad_id : nat;
  ad_residence : location;
  ad_office : location;
  ad_program : program
}.

Record Child := mkChild {
  ch_id : nat;
  ch_residence : location;
  ch_school : location;
  ch_program : program
}.

Inductive Individual :=
| IAdult (a : Adult)
| IChild (c : Child).

(** [Individual.get_residence] (line 162) and the two overrides of
    [get_workplace] (lines 177 and 189). *)
Definition get_residence (x : Individual) : location :=
  match x with
  | IAdult a => ad_residence a
  | IChild c => ch_residence c
  end.

Definition get_workplace (x : Individual) : location :=
  match x with
  | IAdult a => ad_office a
  | IChild c => ch_school c
  end.

Record Household := mkHousehold {
  hh_id : nat;
  hh_size : Z;
  hh_residence : location;
  hh_fleet : Z;
  hh_program : program;
  hh_adults : list Adult;
  hh_children : list Child
}.

(** The attributes of a [Population]; [households] holds references. *)
Record Population := mkPopulation {
  size_freq : list (Z * Z);
  fleet_freq : list (Z * Z);
  prog_freq : list (label * Z);
  households : list href;
  adults : list Adult;
  children : list Child;
  individuals : list Individual
}.

(** The collaborators, by their interface (spec section 6). *)
Record Land := mkLand {
  get_capacities : string -> gmap location Z
}.

Record Demand := mkDemand {
  get_activity : string -> activity;
  programs : gmap label program
}.

(** The state of the module-level generator of [random]: the stream of
    values that [int(random() * n)] will take, and how many were drawn. *)
Record rng := mkRng {
  draws : nat -> nat;
  drawn : nat
}.

(** The four list iterators that [create_households] hands to
    [add_household]: what each has left to yield. *)
Record iterators := mkIterators {
  it_program : list program;
  it_residence : list location;
  it_office : list location;
  it_school : list location
}.

Record world := mkWorld {
  w_random : rng;
  w_land : Land;
  w_heap : list Household;
  w_self : Population;
  w_iter : iterators
}.

Definition set_random (g : rng) (w : world) : world :=
  mkWorld g (w_land w) (w_heap w) (w_self w) (w_iter w).
Definition set_heap (h : list Household) (w : world) : world :=
  mkWorld (w_random w) (w_land w) h (w_self w) (w_iter w).
Definition set_self (p : Population) (w : world) : world :=
  mkWorld (w_random w) (w_land w) (w_heap w) p (w_iter w).
Definition set_iter (i : iterators) (w : world) : world :=
  mkWorld (w_random w) (w_land w) (w_heap w) (w_self w) i.

(** ** The monad of stateful code that may raise *)

Definition M (A : Type) : Type := world -> result A * world.

Definition ret {A} (a : A) : M A := fun w => (Ok a, w).
Definition raise {A} (e : exn) : M A := fun w => (Raise e, w).
Definition bind {A B} (m : M A) (k : A -> M B) : M B :=
  fun w => match m w with
           | (Ok a, w') => k a w'
           | (Raise e, w') => (Raise e, w')
           end.
Definition modify (f : world -> world) : M unit := fun w => (Ok tt, f w).
Definition lift {A} (r : result A) : M A := fun w => (r, w).

Notation "'let*' x ':=' m 'in' k" := (bind m (fun x => k))
  (at level 10, x pattern, m at level 100, k at level 200).
Notation "m ';;' k" := (bind m (fun _ => k))
  (at level 100, k at level 200, right associativity).

(** [for x in l: body(x)]. *)
Fixpoint for_each {A} (l : list A) (body : A -> M unit) : M unit :=
  match l with
  | [] => ret tt
  | x :: l' => body x ;; for_each l' body
  end.

(** [xrange(n)]: empty when [n <= 0]. *)
Definition xrange (n : Z) : list nat := seq 0 (Z.to_nat n).

(** Modelled from the spec: [utils.ndrange] is not part of the sources; the
    spec has the builder walk every (row, column) cell of the table, taken
    here row by row. *)
Definition ndrange (n_row n_col : nat) : list (nat * nat) :=
  i ← seq 0 n_row; (fun j => (i, j)) <$> seq 0 n_col.

(** [it.next()]: the next item, or [StopIteration] once exhausted. *)
Definition next_program : M program := fun w =>
  match it_program (w_iter w) with
  | [] => (Raise StopIteration, w)
  | x :: l => (Ok x, set_iter (mkIterators l (it_residence (w_iter w))
                                 (it_office (w_iter w)) (it_school (w_iter w))) w)
  end.
Definition next_residence : M location := fun w =>
  match it_residence (w_iter w) with
  | [] => (Raise StopIteration, w)
  | x :: l => (Ok x, set_iter (mkIterators (it_program (w_iter w)) l
                                 (it_office (w_iter w)) (it_school (w_iter w))) w)
  end.
Definition next_office : M location := fun w =>
  match it_office (w_iter w) with
  | [] => (Raise StopIteration, w)
  | x :: l => (Ok x, set_iter (mkIterators (it_program (w_iter w))
                                 (it_residence (w_iter w)) l (it_school (w_iter w))) w)
  end.
Definition next_school : M location := fun w =>
  match it_school (w_iter w) with
  | [] => (Raise StopIteration, w)
  | x :: l => (Ok x, set_iter (mkIterators (it_program (w_iter w))
                                 (it_residence (w_iter w)) (it_office (w_iter w)) l) w)
  end.

(** ** The assignment sampler *)

(** [int(random() * n)]: the next draw, reduced below [n]. *)
Definition rand_index (n : nat) : M nat := fun w =>
  let g := w_random w in
  (Ok (draws g (drawn g) `mod` n)%nat, set_random (mkRng (draws g) (S (drawn g))) w).

(** [x[i], x[j] = x[j], x[i]]. *)
Definition swap {A} (i j : nat) (x : list A) : list A :=
  match x !! j, x !! i with
  | Some xj, Some xi => <[j := xi]> (<[i := xj]> x)
  | _, _ => x
  end.

(** The loop of [random.shuffle]: [for i in reversed(xrange(1, len(x)))],
    entered with [i] the last index. *)
Fixpoint shuffle_from {A} (i : nat) (x : list A) : M (list A) :=
  match i with
  | O => ret x
  | S i' =>
      let* j := rand_index (S i) in
      shuffle_from i' (swap i j x)
  end.

Definition shuffle {A} (x : list A) : M (list A) :=
  shuffle_from (length x - 1) x.

(** [l[0:n]]: a negative [n] counts from the end. *)
Definition slice_to {A} (l : list A) (n : Z) : list A :=
  if n <? 0 then take (length l - Z.to_nat (- n)) l else take (Z.to_nat n) l.

Definition capacity_message (capsum total : Z) : string :=
  pretty capsum +:+ " available alternatives < " +:+ pretty total +:+ " required slots".

(** [sum(capacity.values())] (Python ints are exact, so the order of the
    additions is immaterial). *)
Definition capsum_of {K} `{Countable K} (capacity : gmap K Z) : Z :=
  foldr Z.add 0 ((map_to_list capacity).*2).

(** The list that lines 49-52 build from the items of the dict:
    [itertools.repeat(slot, n)] is empty for [n <= 0]. *)
Definition expand {K} (items : list (K * Z)) : list K :=
  foldl (fun acc '(slot, capacity) => acc ++ replicate (Z.to_nat capacity) slot) [] items.

Section Sampler.
Context {K : Type} `{Countable K}.

(** Lines 48-56. The loop variable [capacity] of the source shadows the
    parameter; the dict itself is only read. *)
Definition _rand_assignment (capacity : gmap K Z) : M (list K) :=
  let slot_assginment := expand (map_to_list capacity) in
  shuffle slot_assginment.

(** Lines 58-64. *)
Definition _get_assignments (capacity : gmap K Z) (total : Z) : M (list K) :=
  let capsum := capsum_of capacity in
  if decide (capsum >= total) then
    let* assignment := _rand_assignment capacity in
    ret (slice_to assignment total)
  else raise (AssertionError (capacity_message capsum total)).
End Sampler.

(** ** Entities: [Household], [Adult], [Child] *)

Global Instance Household_inhabited : Inhabited Household :=
  populate (mkHousehold 0 0 0 0 [] [] []).

(** [Household(id_, size, fleet, residence, program)]: a new object on the
    heap, with empty [adults] and [children]. *)
Definition Household_init (id_ : nat) (size fleet : Z) (residence : location)
    (prog : program) : M href := fun w =>
  (Ok (length (w_heap w)),
   set_heap (w_heap w ++ [mkHousehold id_ size residence fleet prog [] []]) w).

(** Reading an attribute of the household behind a reference. Objects are
    never freed, so the default of [!!!] is never taken. *)
Definition attr {A} (h : href) (f : Household -> A) : M A := fun w =>
  (Ok (f (w_heap w !!! h)), w).

Definition append_adult (a : Adult) (hh : Household) : Household :=
  mkHousehold (hh_id hh) (hh_size hh) (hh_residence hh) (hh_fleet hh) (hh_program hh)
              (hh_adults hh ++ [a]) (hh_children hh).
Definition append_child (c : Child) (hh : Household) : Household :=
  mkHousehold (hh_id hh) (hh_size hh) (hh_residence hh) (hh_fleet hh) (hh_program hh)
              (hh_adults hh) (hh_children hh ++ [c]).

(** [Household.add_adult] (lines 140-143) and [add_child] (145-148). *)
Definition Household_add_adult (h : href) (id_ : nat) (residence office : location)
    (prog : program) : M Adult :=
  let adult := mkAdult id_ residence office prog in
  modify (fun w => set_heap (alter (append_adult adult) h (w_heap w)) w) ;;
  ret adult.

Definition Household_add_child (h : href) (id_ : nat) (residence school : location)
    (prog : program) : M Child :=
  let child := mkChild id_ residence school prog in
  modify (fun w => set_heap (alter (append_child child) h (w_heap w)) w) ;;
  ret child.

(** ** The population builder *)

Definition set_households (l : list href) (p : Population) : Population :=
  mkPopulation (size_freq p) (fleet_freq p) (prog_freq p) l (adults p) (children p)
               (individuals p).
Definition set_adults (l : list Adult) (p : Population) : Population :=
  mkPopulation (size_freq p) (fleet_freq p) (prog_freq p) (households p) l (children p)
               (individuals p).
Definition set_children (l : list Child) (p : Population) : Population :=
  mkPopulation (size_freq p) (fleet_freq p) (prog_freq p) (households p) (adults p) l
               (individuals p).
Definition set_individuals (l : list Individual) (p : Population) : Population :=
  mkPopulation (size_freq p) (fleet_freq p) (prog_freq p) (households p) (adults p)
               (children p) l.

(** A list object used as a pool, seen through [len] and [append]. *)
Record pool (A : Type) := mkPool {
  pool_len : M nat;
  pool_append : A -> M unit
}.
Arguments pool_len {A} p.
Arguments pool_append {A} p.

(** [self.households]. *)
Definition self_households : pool href :=
  mkPool href
    (fun w => (Ok (length (households (w_self w))), w))
    (fun h => modify (fun w => set_self (set_households (households (w_self w) ++ [h])
                                                         (w_self w)) w)).

(** [self.individuals], receiving the objects that [inj] wraps. *)
Definition self_individuals {A} (inj : A -> Individual) : pool A :=
  mkPool A
    (fun w => (Ok (length (individuals (w_self w))), w))
    (fun a => modify (fun w => set_self (set_individuals (individuals (w_self w) ++ [inj a])
                                                          (w_self w)) w)).

(** Modelled from the spec: [utils.add_object2pool] is not part of the
    sources. The spec has each created entity carry an identity and be
    appended to the flat list it is created for; the identity is taken to be
    the length of the pool at creation. *)
Definition add_object2pool {A} (constructor : nat -> M A) (p : pool A) : M A :=
  let* id_ := pool_len p in
  let* obj := constructor id_ in
  pool_append p obj ;;
  ret obj.

(** [__init__] (lines 16-21): [sorted] orders the pairs lexicographically. *)
Definition pair_le (a b : Z * Z) : Prop := a.1 < b.1 \/ (a.1 = b.1 /\ a.2 <= b.2).
Global Instance pair_le_dec : RelDecision pair_le.
Proof. intros a b; unfold pair_le; apply _. Defined.

Definition Population_init (size_freq fleet_freq : list (Z * Z))
    (prog_freq : list (label * Z)) : Population :=
  mkPopulation (merge_sort pair_le size_freq) (merge_sort pair_le fleet_freq) prog_freq
               [] [] [] [].

(** The occupancy rule of lines 71 and 73 (and of lines 103 and 105). *)
Definition workers_of (size : Z) : Z := if size >? 3 then 2 else size.
Definition students_of (size : Z) : Z := if size <? 3 then 0 else size - 2.

(** The body of the loop of lines 81-84: one more worker of the household. *)
Definition new_worker (household : href) (adult_program : program) : M unit :=
  let* hresidence := attr household hh_residence in
  let* office := next_office in
  let* adult :=
    add_object2pool (fun id_ => Household_add_adult household id_ hresidence office
                                                    adult_program)
                    (self_individuals IAdult) in
  modify (fun w => set_self (set_adults (adults (w_self w) ++ [adult]) (w_self w)) w).

(** The body of the loop of lines 86-89: one more student of the household. *)
Definition new_student (household : href) (child_program : program) : M unit :=
  let* hresidence := attr household hh_residence in
  let* school := next_school in
  let* child :=
    add_object2pool (fun id_ => Household_add_child household id_ hresidence school
                                                    child_program)
                    (self_individuals IChild) in
  modify (fun w => set_self (set_children (children (w_self w) ++ [child]) (w_self w)) w).

(** [add_household] (lines 66-90). The iterators are those of the world;
    the arguments of a call are evaluated left to right, so the residence is
    drawn before the program. *)
Definition add_household (size fleet : Z) (demand : Demand) : M href :=
  let* residence := next_residence in
  let* prog := next_program in
  let* household :=
    add_object2pool (fun id_ => Household_init id_ size fleet residence prog)
                    self_households in
  let wknum := workers_of size in
  let stnum := students_of size in
  let ihome := get_activity demand "home" in
  let iwork := get_activity demand "work" in
  let ischool := get_activity demand "school" in
  let* hprogram := attr household hh_program in
  let adult_program := [ihome; iwork] ++ hprogram in
  for_each (xrange wknum) (fun _ => new_worker household adult_program) ;;
  let* hprogram := attr household hh_program in
  let child_program := [ihome; ischool] ++ hprogram in
  for_each (xrange stnum) (fun _ => new_student household child_program) ;;
  ret household.

(** Line 107: [dict(((demand.programs[id_], freq) for id_, freq in
    self.prog_freq))]; a label that [demand.programs] lacks is a [KeyError],
    a program met twice keeps its last frequency. *)
Definition program_freq_of (demand : Demand) (prog_freq : list (label * Z))
    : result (gmap program Z) :=
  foldl (fun acc '(id_, freq) =>
           match acc with
           | Raise e => Raise e
           | Ok d => match programs demand !! id_ with
                     | Some p => Ok (<[p := freq]> d)
                     | None => Raise KeyError
                     end
           end)
        (Ok ∅) prog_freq.

(** [l[i]] of a list. *)
Definition getitem {A} (l : list A) (i : nat) : M A :=
  match l !! i with
  | Some x => ret x
  | None => raise IndexError
  end.

(** The body of the loop of lines 120-124: the households of one cell. *)
Definition households_of_cell (table : Np.ndarray2) (demand : Demand)
    (ij : nat * nat) : M unit :=
  let '(i, j) := ij in
  let* row := getitem table i in
  let* x := getitem row j in
  let* n := lift (int_round x) in
  for_each (xrange n) (fun _ =>
    let* self := (fun w => (Ok (w_self w), w)) in
    let* sz := getitem (size_freq self) j in
    let* fl := getitem (fleet_freq self) i in
    add_household sz.1 fl.1 demand ;;
    ret tt).

(** Lines 99-124 of [create_households]: what follows the fit, for a table
    of shape [(n_row, n_col)]. *)
Definition households_of_table (n_row n_col : nat) (table : Np.ndarray2)
    (demand : Demand) : M unit :=
  let* hhnum := lift (int_round (Np.sum_all table)) in
  let* self := (fun w => (Ok (w_self w), w)) in
  let wknum := foldr Z.add 0 ((fun '(size, freq) => workers_of size * freq) <$> size_freq self) in
  let stnum := foldr Z.add 0 ((fun '(size, freq) => students_of size * freq) <$> size_freq self) in
  let* program_freq := lift (program_freq_of demand (prog_freq self)) in
  let* programs := _get_assignments program_freq hhnum in
  let* land := (fun w => (Ok (w_land w), w)) in
  let* residences := _get_assignments (get_capacities land "home") hhnum in
  let* offices := _get_assignments (get_capacities land "work") wknum in
  let* schools := _get_assignments (get_capacities land "school") stnum in
  modify (set_iter (mkIterators programs residences offices schools)) ;;
  for_each (ndrange n_row n_col) (households_of_cell table demand).

(** [create_households] (lines 92-124). [land] is the [w_land] of the
    world. [None]: the fit has not returned within the fuel. *)
Definition create_households (fuel : nat) (demand : Demand) (w : world)
    : option (result unit * world) :=
  let self := w_self w in
  let fleet_array := Np.array (fleet_freq self).*2 in
  let size_array := Np.array (size_freq self).*2 in
  match _proportional_fit fuel fleet_array size_array default_tolerance with
  | None => None
  | Some (Raise e) => Some (Raise e, w)
  | Some (Ok table) =>
      Some (households_of_table (Np.size fleet_array) (Np.size size_array) table demand w)
  end.

(** ** Vocabulary of the statements *)

(** [table[i, j]], when the cell exists. *)
Definition cell (table : Np.ndarray2) (i j : nat) : option float :=
  table !! i ≫= (.!! j).


(** A float that is a zero of either sign or a NaN. *)
Definition zero_or_nan (x : float) : Prop :=
  match Prim2SF x with
  | S754_zero _ | S754_nan => True
  | _ => False
  end.

(** A float with a clear sign bit, or a NaN. *)
Definition unsigned_or_nan (x : float) : Prop :=
  match Prim2SF x with
  | S754_nan => True
  | S754_zero s | S754_infinity s | S754_finite s _ _ => s = false
  end.

(** How often [k] occurs in [l]. *)
Definition occurrences {K} `{EqDecision K} (k : K) (l : list K) : nat :=
  length (filter (k =.) l).

(** [int(round(table[i, j]))], and [0] where that raises or the cell does
    not exist. *)
Definition rounded_cell (table : Np.ndarray2) (ij : nat * nat) : Z :=
  match cell table ij.1 ij.2 with
  | Some x => match int_round x with Ok n => n | Raise _ => 0 end
  | None => 0
  end.

(** The sum over all cells [(i, j)] of [int(round(table[i, j]))]. *)
Definition rounded_cells (n_row n_col : nat) (table : Np.ndarray2) : Z :=
  foldr Z.add 0 (rounded_cell table <$> ndrange n_row n_col).

(** A table of [n_row] rows of [n_col] cells. *)
Definition shaped (n_row n_col : nat) (T : Np.ndarray2) : Prop :=
  length T = n_row /\ Forall (fun row => length row = n_col) T.

(** The cells below the diagonal hold a zero or a NaN, in a table of the
    right shape: the invariant of the fitting loop. *)
Definition below_diagonal_zero_or_nan (n_row n_col : nat) (T : Np.ndarray2) : Prop :=
  shaped n_row n_col T /\
  forall i j x, (j < i)%nat -> cell T i j = Some x -> zero_or_nan x.

(** The world once a household of the given residence and program, with
    the given members, has been added to [w], the iterators being [its]. *)
Definition with_household (w : world) (size fleet : Z) (residence : location)
    (prog : program) (new_adults : list Adult) (new_children : list Child)
    (its : iterators) : world :=
  let self := w_self w in
  mkWorld (w_random w) (w_land w)
    (w_heap w ++ [mkHousehold (length (households self)) size residence fleet prog
                              new_adults new_children])
    (mkPopulation (size_freq self) (fleet_freq self) (prog_freq self)
       (households self ++ [length (w_heap w)])
       (adults self ++ new_adults)
       (children self ++ new_children)
       (individuals self ++ (IAdult <$> new_adults) ++ (IChild <$> new_children)))
    its.

(** *** Vocabulary of the population builder *)

(** The frequency lists of the population are those of [w]. *)
Definition same_frequencies (w w' : world) : Prop :=
  size_freq (w_self w') = size_freq (w_self w)
  /\ fleet_freq (w_self w') = fleet_freq (w_self w).

(** From [w] to [w'], [n] households were created, each with a residence
    drawn from the iterator. *)
Definition added (n : nat) (w w' : world) : Prop :=
  length (w_heap w') = (length (w_heap w) + n)%nat
  /\ length (households (w_self w')) = (length (households (w_self w)) + n)%nat
  /\ (length (it_residence (w_iter w')) + n)%nat = length (it_residence (w_iter w))
  /\ same_frequencies w w'.

(** From [w] to [w'], no more households were created than residences
    were drawn. *)
Definition stopped (w w' : world) : Prop :=
  (length (w_heap w) <= length (w_heap w'))%nat
  /\ (length (w_heap w') + length (it_residence (w_iter w'))
      <= length (w_heap w) + length (it_residence (w_iter w)))%nat
  /\ same_frequencies w w'.

(** The frequency lists of [w] have a row [i] and a column [j] for every
    cell of an [n_row] by [n_col] table. *)
Definition covers (n_row n_col : nat) (w : world) : Prop :=
  (n_row <= length (fleet_freq (w_self w)))%nat
  /\ (n_col <= length (size_freq (w_self w)))%nat.

(** The number of households that the cells of the table ask for. *)
Definition households_asked (n_row n_col : nat) (table : Np.ndarray2) : nat :=
  sum_list ((fun ij => Z.to_nat (rounded_cell table ij)) <$> ndrange n_row n_col).

(** Every cell has a clear sign bit or is a NaN. *)
Definition unsigned_table (T : Np.ndarray2) : Prop :=
  forall i j x, cell T i j = Some x -> unsigned_or_nan x.

(** An infinity or a NaN: what [int] refuses. *)
Definition overflowed (x : float) : Prop :=
  match Prim2SF x with
  | S754_nan | S754_infinity _ => True
  | _ => False
  end.

(** *** Vocabulary of the members and of the program frequencies *)

(** From [w] to [w'], [a] adults and [c] children were created, each of
    them also an individual. *)
Definition members_added (a c : nat) (w w' : world) : Prop :=
  length (adults (w_self w')) = (length (adults (w_self w)) + a)%nat
  /\ length (children (w_self w')) = (length (children (w_self w)) + c)%nat
  /\ length (individuals (w_self w')) = (length (individuals (w_self w)) + a + c)%nat
  /\ same_frequencies w w'.

(** The household size of column [j] of the table. *)
Definition size_of_column (sizes : list (Z * Z)) (j : nat) : Z := (sizes !!! j).1.

(** The numbers of adults and of children that the cells of the table ask
    for: each household of cell [(i, j)] has the members of its size. *)
Definition adults_asked (sizes : list (Z * Z)) (n_row n_col : nat) (table : Np.ndarray2)
    : nat :=
  sum_list ((fun ij => Z.to_nat (rounded_cell table ij)
                       * Z.to_nat (workers_of (size_of_column sizes ij.2)))%nat
            <$> ndrange n_row n_col).
Definition children_asked (sizes : list (Z * Z)) (n_row n_col : nat) (table : Np.ndarray2)
    : nat :=
  sum_list ((fun ij => Z.to_nat (rounded_cell table ij)
                       * Z.to_nat (students_of (size_of_column sizes ij.2)))%nat
            <$> ndrange n_row n_col).

(** The frequency lists are [sizes], with a row and a column for every
    cell of the table. *)
Definition ok_frequencies (sizes : list (Z * Z)) (n_row n_col : nat) (w : world) : Prop :=
  covers n_row n_col w /\ size_freq (w_self w) = sizes.

(** One step of the fold of [program_freq_of]. *)
Definition freq_step (demand : Demand) (acc : result (gmap program Z)) (q : label * Z)
    : result (gmap program Z) :=
  let '(id_, freq) := q in
  match acc with
  | Raise e => Raise e
  | Ok d => match programs demand !! id_ with
            | Some p => Ok (<[p := freq]> d)
            | None => Raise KeyError
            end
  end.

(** ** Sample inputs *)

Definition sample_land : Land :=
  mkLand (fun category =>
            if decide (category = "home") then {[ 100%nat := 20; 101%nat := 20 ]}
            else if decide (category = "work") then {[ 200%nat := 30; 201%nat := 40 ]}
            else if decide (category = "school") then {[ 300%nat := 50 ]}
            else ∅).

Definition sample_demand : Demand :=
  mkDemand (fun name =>
              if decide (name = "home") then 1%nat
              else if decide (name = "work") then 2%nat
              else 3%nat)
           {[ 0%nat := [7%nat]; 1%nat := [8%nat; 9%nat] ]}.

Definition sample_rng : rng := mkRng (fun k => (k * k + 3 * k + 1)%nat) 0.

(** A world with an empty population over the given frequencies. *)
Definition sample_world (size_freq fleet_freq : list (Z * Z)) : world :=
  mkWorld sample_rng sample_land []
          (Population_init size_freq fleet_freq [(0%nat, 25); (1%nat, 25)])
          (mkIterators [] [] [] []).

(** A world whose fitted table asks for 6 households where [hhnum] is 5,
    and one whose table asks for 6 where [hhnum] is 7. *)
Definition sample_world_short : world :=
  sample_world [(1, 1); (2, 1); (3, 3)] [(0, 2); (1, 1); (2, 2)].
Definition sample_world_long : world :=
  sample_world [(1, 1); (2, 2); (3, 4)] [(0, 4); (1, 1); (2, 2)].

(** A world whose iterators have enough left for one household of size 3. *)
Definition sample_world_streams : world :=
  set_iter (mkIterators [[7%nat]] [100%nat] [200; 200; 201]%nat [300%nat])
           (sample_world [] []).

(** * Properties *)

(** ** binary64 arithmetic, from its specification *)

Section Binary64.
Implicit Types x y r s t : float.

Lemma Prim2SF_nan_inv x : Prim2SF x = S754_nan -> x = nan.
Proof. intros E. apply Prim2SF_inj. rewrite E. reflexivity. Qed.

Lemma Prim2SF_nan_iff x : Prim2SF x = S754_nan <-> x = nan.
Proof. split; [apply Prim2SF_nan_inv | intros ->; reflexivity]. Qed.

Lemma mul_nan_r x : (x * nan)%float = nan.
Proof.
  apply Prim2SF_inj. rewrite mul_spec. change (Prim2SF nan) with S754_nan.
  unfold SF64mul. destruct (Prim2SF x); reflexivity.
Qed.

Lemma mul_nan_l x : (nan * x)%float = nan.
Proof.
  apply Prim2SF_inj. rewrite mul_spec. change (Prim2SF nan) with S754_nan.
  reflexivity.
Qed.

Lemma div_nan_r x : (x / nan)%float = nan.
Proof.
  apply Prim2SF_inj. rewrite div_spec. change (Prim2SF nan) with S754_nan.
  unfold SF64div. destruct (Prim2SF x); reflexivity.
Qed.

Lemma add_nan_r x : (x + nan)%float = nan.
Proof.
  apply Prim2SF_inj. rewrite add_spec. change (Prim2SF nan) with S754_nan.
  unfold SF64add. destruct (Prim2SF x); reflexivity.
Qed.

Lemma add_nan_l x : (nan + x)%float = nan.
Proof.
  apply Prim2SF_inj. rewrite add_spec. change (Prim2SF nan) with S754_nan.
  reflexivity.
Qed.

Lemma sub_nan_l x : (nan - x)%float = nan.
Proof.
  apply Prim2SF_inj. rewrite sub_spec. change (Prim2SF nan) with S754_nan.
  reflexivity.
Qed.

Lemma ltb_nan_r x : (x <? nan)%float = false.
Proof.
  rewrite ltb_spec. change (Prim2SF nan) with S754_nan.
  unfold SFltb, SFcompare. destruct (Prim2SF x); reflexivity.
Qed.

(** A result that is not a NaN had no NaN operand. *)
Lemma sub_not_nan x y : (x - y)%float <> nan -> x <> nan.
Proof. intros Hn ->. apply Hn, sub_nan_l. Qed.

Lemma square_not_nan x : (x * x)%float <> nan -> x <> nan.
Proof. intros Hn ->. apply Hn, mul_nan_l. Qed.

Lemma SFcompare_refl (a : spec_float) : a <> S754_nan -> SFcompare a a = Some Eq.
Proof.
  destruct a as [[]|[]| |[] m e]; simpl; try congruence; intros _;
    rewrite Z.compare_refl;
    change (Pos.compare_cont Eq m m) with (Pos.compare m m);
    rewrite Pos.compare_refl; reflexivity.
Qed.

Lemma SFcompare_antisym (a b : spec_float) c :
  SFcompare a b = Some c -> SFcompare b a = Some (CompOpp c).
Proof.
  destruct a as [sa|sa| |sa ma ea], b as [sb|sb| |sb mb eb]; simpl;
    try discriminate;
    try (destruct sa; try destruct sb; intros [= <-]; reflexivity).
  assert (E : forall p q, Pos.compare_cont Eq q p = CompOpp (Pos.compare_cont Eq p q))
    by (intros p q; apply (Pos.compare_antisym p q)).
  destruct sa, sb; intros [= <-]; try reflexivity;
    rewrite (Z.compare_antisym ea eb); destruct (ea ?= eb)%Z; simpl; try reflexivity;
    rewrite (E ma mb); try reflexivity.
Qed.

Lemma is_nan_false x : is_nan x = false <-> x <> nan.
Proof.
  unfold is_nan. rewrite eqb_spec, <- Prim2SF_nan_iff. unfold SFeqb. split.
  - intros E N. rewrite N in E. discriminate.
  - intros N. rewrite (SFcompare_refl _ N). reflexivity.
Qed.

(** With no NaN involved, [x <= y] is the negation of [y < x]. *)
Lemma leb_of_not_ltb x y :
  x <> nan -> y <> nan -> (y <? x)%float = false -> (x <=? y)%float = true.
Proof.
  rewrite <- !Prim2SF_nan_iff, ltb_spec, leb_spec. unfold SFltb, SFleb.
  destruct (SFcompare (Prim2SF x) (Prim2SF y)) as [c|] eqn:E.
  - rewrite (SFcompare_antisym _ _ _ E). destruct c; simpl; congruence.
  - destruct (Prim2SF x), (Prim2SF y); simpl in *; congruence.
Qed.

Lemma ltb_infinity_not_nan x : (x <? infinity)%float = true -> x <> nan.
Proof. intros E ->. discriminate. Qed.

(** Rounding keeps the sign it is given. *)
Lemma binary_round_aux_sign sg m e l :
  match binary_round_aux prec emax sg m e l with
  | S754_zero s' | S754_infinity s' | S754_finite s' _ _ => s' = sg
  | S754_nan => True
  end.
Proof.
  unfold binary_round_aux.
  destruct (shr_fexp prec emax m e l) as [mrs e'].
  destruct (shr_fexp prec emax _ e' loc_Exact) as [mrs' e''].
  destruct (shr_m mrs'); [reflexivity| |exact I].
  destruct (e'' <=? emax - prec)%Z; reflexivity.
Qed.

Lemma binary_round_sign sg m e :
  match binary_round prec emax sg m e with
  | S754_zero s' | S754_infinity s' | S754_finite s' _ _ => s' = sg
  | S754_nan => True
  end.
Proof.
  unfold binary_round. destruct (shl_align _ _ _) as [mz ez].
  apply binary_round_aux_sign.
Qed.

(** *** Zeros stay zeros (or turn into NaN) under the rescaling *)

Lemma zero_or_nan_rescale r t s : zero_or_nan t -> zero_or_nan (r * (t / s))%float.
Proof.
  unfold zero_or_nan. rewrite mul_spec, div_spec. unfold SF64mul, SF64div.
  destruct (Prim2SF t) as [st|st| |st mt et]; try contradiction; intros _;
    destruct (Prim2SF s) as [ss|ss| |ss ms es], (Prim2SF r) as [sr|sr| |sr mr er];
    simpl; exact I.
Qed.

Lemma zero_or_nan_eqb x : zero_or_nan x -> x <> nan -> (x =? 0)%float = true.
Proof.
  unfold zero_or_nan. rewrite <- Prim2SF_nan_iff, eqb_spec.
  destruct (Prim2SF x); try contradiction; try congruence; reflexivity.
Qed.





(** *** Unsigned values stay unsigned under [+], [*] and [/] *)

Lemma unsigned_or_nan_mul x y :
  unsigned_or_nan x -> unsigned_or_nan y -> unsigned_or_nan (x * y)%float.
Proof.
  unfold unsigned_or_nan. rewrite mul_spec. unfold SF64mul.
  destruct (Prim2SF x) as [sx|sx| |sx mx ex], (Prim2SF y) as [sy|sy| |sy my ey];
    simpl; try tauto; try (intros -> ->; reflexivity).
  intros -> ->. apply binary_round_aux_sign.
Qed.

Lemma unsigned_or_nan_div x y :
  unsigned_or_nan x -> unsigned_or_nan y -> unsigned_or_nan (x / y)%float.
Proof.
  unfold unsigned_or_nan. rewrite div_spec. unfold SF64div.
  destruct (Prim2SF x) as [sx|sx| |sx mx ex], (Prim2SF y) as [sy|sy| |sy my ey];
    simpl; try tauto; try (intros -> ->; reflexivity).
  intros -> ->. unfold SFdiv.
  destruct (SFdiv_core_binary _ _ _ _ _ _) as [[mz ez] lz].
  apply binary_round_aux_sign.
Qed.

Lemma unsigned_or_nan_add x y :
  unsigned_or_nan x -> unsigned_or_nan y -> unsigned_or_nan (x + y)%float.
Proof.
  unfold unsigned_or_nan. rewrite add_spec. unfold SF64add.
  destruct (Prim2SF x) as [sx|sx| |sx mx ex], (Prim2SF y) as [sy|sy| |sy my ey];
    simpl; try tauto; try (intros -> ->; reflexivity).
  intros -> ->. simpl. apply binary_round_sign.
Qed.

Lemma unsigned_or_nan_of_uint63 n : unsigned_or_nan (of_uint63 n).
Proof.
  unfold unsigned_or_nan. rewrite of_uint63_spec. unfold binary_normalize.
  pose proof (Uint63.to_Z_bounded n) as [Hn _].
  destruct (Uint63.to_Z n) as [|p|p]; [reflexivity | apply binary_round_sign | lia].
Qed.

Lemma unsigned_or_nan_float_of_int64 z : 0 <= z -> unsigned_or_nan (Np.float_of_int64 z).
Proof.
  intros Hz. unfold Np.float_of_int64.
  destruct (Z.eqb_spec z (- 2 ^ 63)); [lia|].
  destruct (Z.ltb_spec z 0); [lia|]. apply unsigned_or_nan_of_uint63.
Qed.

(** What [int(round(x))] returns for an unsigned [x] is not negative. *)
Lemma int_round_unsigned x n : unsigned_or_nan x -> int_round x = Ok n -> 0 <= n.
Proof.
  unfold unsigned_or_nan, int_round.
  destruct (Prim2SF x) as [sx|sx| |sx mx ex]; try discriminate.
  - intros _ [= <-]. lia.
  - intros -> [= <-]. destruct (Z.leb_spec 0 ex).
    + apply Z.mul_nonneg_nonneg; [lia | apply Z.pow_nonneg; lia].
    + apply Z.div_pos; [|apply Z.pow_pos_nonneg; lia].
      pose proof (Z.pow_nonneg 2 (- ex - 1)). lia.
Qed.
End Binary64.

(** ** The proportional fitter *)

Section Fitter.
Implicit Types (R C : list float) (T : Np.ndarray2) (row : list float).

(** *** Sums *)

Lemma foldl_add_closed (P : float -> Prop) (l : list float) a :
  (forall x y, P x -> P y -> P (x + y)%float) ->
  P a -> Forall P l -> P (foldl PrimFloat.add a l).
Proof.
  intros Hadd Ha Hl. revert a Ha.
  induction Hl as [|x l Hx _ IH]; intros a Ha; simpl; auto.
Qed.

Lemma fsum_closed (P : float -> Prop) (l : list float) :
  (forall x y, P x -> P y -> P (x + y)%float) ->
  P 0%float -> Forall P l -> P (Np.fsum l).
Proof. intros. unfold Np.fsum. apply foldl_add_closed; assumption. Qed.

Lemma foldl_add_nan (l : list float) : foldl PrimFloat.add nan l = nan.
Proof. induction l as [|x l IH]; simpl; [|rewrite add_nan_l]; auto. Qed.

Lemma fsum_nan (l : list float) : nan ∈ l -> Np.fsum l = nan.
Proof.
  unfold Np.fsum. generalize 0%float.
  induction l as [|x l IH]; intros a Hin; [inversion Hin|].
  simpl. apply elem_of_cons in Hin as [<- | Hin].
  - rewrite add_nan_r. apply foldl_add_nan.
  - apply IH, Hin.
Qed.

Lemma fsum_not_nan (l : list float) x : Np.fsum l <> nan -> x ∈ l -> x <> nan.
Proof. intros Hs Hx ->. apply Hs, fsum_nan, Hx. Qed.

(** *** Cells of a rescaled table *)

Lemma row_fit_lookup R T i row' :
  row_fit R T !! i = Some row' ->
  exists r row, R !! i = Some r /\ T !! i = Some row /\
                row' = (fun t => r * (t / Np.fsum row))%float <$> row.
Proof.
  unfold row_fit, Np.sum_axis1. rewrite lookup_zip_with.
  destruct (R !! i) as [r|]; [|discriminate]. simpl.
  rewrite lookup_zip_with, list_lookup_fmap.
  destruct (T !! i) as [row|]; [|discriminate].
  simpl. intros [= <-]. eauto.
Qed.

Lemma col_fit_lookup C T i row' :
  col_fit C T !! i = Some row' ->
  exists row, T !! i = Some row /\
    row' = zip_with (fun c '(t, s) => c * (t / s))%float C
                    (zip row (Np.sum_axis0 (length C) T)).
Proof.
  unfold col_fit. rewrite list_lookup_fmap.
  destruct (T !! i) as [row|]; [|discriminate]. simpl. intros [= <-]. eauto.
Qed.

Lemma sum_axis0_lookup n_col T j s :
  Np.sum_axis0 n_col T !! j = Some s ->
  (j < n_col)%nat /\ s = Np.fsum ((fun row => default 0%float (row !! j)) <$> T).
Proof.
  unfold Np.sum_axis0. rewrite list_lookup_fmap.
  destruct (seq 0 n_col !! j) as [k|] eqn:E; [|discriminate].
  apply lookup_seq in E as [-> ?]. simpl. intros [= <-]. auto.
Qed.

Lemma row_fit_cell R T i j x :
  cell (row_fit R T) i j = Some x ->
  exists r row t, R !! i = Some r /\ T !! i = Some row /\ row !! j = Some t /\
                  x = (r * (t / Np.fsum row))%float.
Proof.
  unfold cell. destruct (row_fit R T !! i) as [row'|] eqn:E; [|discriminate].
  apply row_fit_lookup in E as (r & row & Hr & Hrow & ->). simpl.
  rewrite list_lookup_fmap. destruct (row !! j) as [t|] eqn:Ht; [|discriminate].
  simpl. intros [= <-]. eauto 10.
Qed.

Lemma col_fit_cell C T i j x :
  cell (col_fit C T) i j = Some x ->
  exists c t, C !! j = Some c /\ cell T i j = Some t /\
    x = (c * (t / Np.fsum ((fun row => default 0%float (row !! j)) <$> T)))%float.
Proof.
  unfold cell. destruct (col_fit C T !! i) as [row'|] eqn:E; [|discriminate].
  apply col_fit_lookup in E as (row & Hrow & ->). simpl.
  rewrite lookup_zip_with.
  destruct (C !! j) as [c|]; [|discriminate]. simpl.
  rewrite lookup_zip_with.
  destruct (row !! j) as [t|] eqn:Ht; [|discriminate]. simpl.
  destruct (Np.sum_axis0 _ _ !! j) as [s|] eqn:Hs; [|discriminate].
  apply sum_axis0_lookup in Hs as [_ ->]. simpl. intros [= <-].
  exists c, t. rewrite Hrow. simpl. auto.
Qed.

Lemma fit_step_cell R C T i j x :
  cell (fit_step R C T) i j = Some x ->
  exists r c t s1 s2, R !! i = Some r /\ C !! j = Some c /\ cell T i j = Some t /\
                      x = (c * ((r * (t / s1)) / s2))%float.
Proof.
  unfold fit_step. intros (c & t' & Hc & Ht' & ->)%col_fit_cell.
  apply row_fit_cell in Ht' as (r & row & t & Hr & Hrow & Ht & ->).
  exists r, c, t. do 2 eexists. unfold cell. rewrite Hrow. simpl. eauto.
Qed.

(** *** The shape of the table *)

Lemma initial_table_shaped n_row n_col : shaped n_row n_col (initial_table n_row n_col).
Proof.
  unfold shaped, initial_table. split.
  - rewrite length_fmap, length_seq. reflexivity.
  - apply Forall_fmap, Forall_forall. intros i _. simpl.
    rewrite length_fmap, length_seq. reflexivity.
Qed.

Lemma row_fit_shaped R T n_col : shaped (length R) n_col T -> shaped (length R) n_col (row_fit R T).
Proof.
  intros [HT Hrows]. split.
  - unfold row_fit, Np.sum_axis1.
    rewrite length_zip_with, length_zip_with, length_fmap. lia.
  - apply Forall_lookup. intros i row' (r & row & _ & Hrow & ->)%row_fit_lookup.
    rewrite length_fmap. apply (Forall_lookup_1 _ _ _ _ Hrows Hrow).
Qed.

Lemma col_fit_shaped C T n_row : shaped n_row (length C) T -> shaped n_row (length C) (col_fit C T).
Proof.
  intros [HT Hrows]. split.
  - unfold col_fit. rewrite length_fmap. exact HT.
  - apply Forall_lookup. intros i row' (row & Hrow & ->)%col_fit_lookup.
    rewrite length_zip_with, length_zip_with.
    unfold Np.sum_axis0. rewrite length_fmap, length_seq.
    pose proof (Forall_lookup_1 _ _ _ _ Hrows Hrow) as Hl. simpl in Hl. lia.
Qed.

Lemma fit_step_shaped R C T :
  shaped (length R) (length C) T -> shaped (length R) (length C) (fit_step R C T).
Proof. intros. apply col_fit_shaped, row_fit_shaped. assumption. Qed.

Lemma shaped_cell n_row n_col T i j :
  shaped n_row n_col T -> (i < n_row)%nat -> (j < n_col)%nat -> is_Some (cell T i j).
Proof.
  intros [HT Hrows] Hi Hj. unfold cell.
  destruct (lookup_lt_is_Some_2 T i) as [row Hrow]; [lia|].
  rewrite Hrow. simpl. apply lookup_lt_is_Some_2.
  rewrite (Forall_lookup_1 _ _ _ _ Hrows Hrow). exact Hj.
Qed.

(** *** The loop *)

(** An invariant of the loop body holds of the returned table, and the
    loop exits on the row error it has just computed, unless it never ran. *)
Lemma fit_loop_invariant (P : Np.ndarray2 -> Prop) R C tol :
  (forall T, P T -> P (fit_step R C T)) ->
  forall fuel T err T',
    P T -> fit_loop fuel R C tol T err = Some T' ->
    P T' /\ ((T' = T /\ (tol <? err)%float = false)
             \/ (tol <? row_error R T')%float = false).
Proof.
  intros Hstep. induction fuel as [|fuel IH]; intros T err T' HP; simpl.
  - destruct (tol <? err)%float eqn:E; [discriminate|]. intros [= <-]. auto.
  - destruct (tol <? err)%float eqn:E.
    + intros Hl. apply IH in Hl as [HP' [[-> E'] | E']]; auto.
    + intros [= <-]. auto.
Qed.





End Fitter.

Section FitterClaims.
Implicit Types (T : Np.ndarray2) (row : list float).

Lemma length_to_float64 a : length (Np.to_float64 a) = Np.size a.
Proof. destruct a; simpl; [apply length_fmap | reflexivity]. Qed.

Lemma initial_table_cell n_row n_col i j x :
  cell (initial_table n_row n_col) i j = Some x ->
  (i < n_row)%nat /\ (j < n_col)%nat /\
  x = if decide (j < i)%nat then 0%float else 1%float.
Proof.
  unfold cell, initial_table. rewrite list_lookup_fmap.
  destruct (seq 0 n_row !! i) as [i'|] eqn:Ei; [|discriminate].
  apply lookup_seq in Ei as [-> Hi]. simpl. rewrite list_lookup_fmap.
  destruct (seq 0 n_col !! j) as [j'|] eqn:Ej; [|discriminate].
  apply lookup_seq in Ej as [-> Hj]. simpl. intros [= <-]. auto.
Qed.

Lemma initial_table_below_diagonal n_row n_col :
  below_diagonal_zero_or_nan n_row n_col (initial_table n_row n_col).
Proof.
  split; [apply initial_table_shaped|].
  intros i j x Hji (_ & _ & ->)%initial_table_cell.
  destruct (decide (j < i)%nat); [exact I | lia].
Qed.

Lemma fit_step_below_diagonal R C T :
  below_diagonal_zero_or_nan (length R) (length C) T ->
  below_diagonal_zero_or_nan (length R) (length C) (fit_step R C T).
Proof.
  intros [Hs Hz]. split; [apply fit_step_shaped, Hs|].
  intros i j x Hji (r & c & t & s1 & s2 & _ & _ & Ht & ->)%fit_step_cell.
  do 2 apply zero_or_nan_rescale. exact (Hz i j t Hji Ht).
Qed.

(** A row error that is not a NaN was computed from cells none of which
    is a NaN. *)
Lemma row_error_not_nan R T i j x :
  length T = length R ->
  row_error R T <> nan -> cell T i j = Some x -> x <> nan.
Proof.
  intros Hlen Herr Hx. unfold cell in Hx.
  destruct (T !! i) as [row|] eqn:Hrow; [|discriminate]. simpl in Hx.
  destruct (lookup_lt_is_Some_2 R i) as [r Hr].
  { rewrite <- Hlen. eapply lookup_lt_Some, Hrow. }
  unfold row_error in Herr.
  set (d := (Np.fsum row - r)%float).
  assert (Hd : (d * d)%float ∈
               zip_with PrimFloat.mul (zip_with PrimFloat.sub (Np.sum_axis1 T) R)
                                      (zip_with PrimFloat.sub (Np.sum_axis1 T) R)).
  { apply list_elem_of_lookup. exists i. rewrite lookup_zip_with.
    unfold Np.sum_axis1. rewrite lookup_zip_with, list_lookup_fmap, Hrow, Hr.
    reflexivity. }
  pose proof (fsum_not_nan _ _ Herr Hd) as Hdd.
  apply square_not_nan, sub_not_nan in Hdd.
  apply (fsum_not_nan row x Hdd). eapply list_elem_of_lookup_2, Hx.
Qed.
End FitterClaims.

Section ZeroSums.
Implicit Types (T : Np.ndarray2) (row : list float).

Lemma initial_table_zero_row n_row n_col i row :
  initial_table n_row n_col !! i = Some row -> (n_col <= i)%nat ->
  row = replicate n_col 0%float.
Proof.
  unfold initial_table. rewrite list_lookup_fmap.
  destruct (seq 0 n_row !! i) as [i'|] eqn:Ei; [|discriminate].
  apply lookup_seq in Ei as [-> Hi]. simpl. intros [= <-] Hle.
  symmetry. apply replicate_as_Forall. split.
  - rewrite length_fmap, length_seq. reflexivity.
  - apply Forall_fmap, Forall_forall. intros j [_ Hj]%elem_of_seq. simpl.
    destruct (decide (j < i)%nat); [reflexivity | lia].
Qed.

Lemma fsum_zeros n : Np.fsum (replicate n 0%float) = 0%float.
Proof.
  unfold Np.fsum. induction n as [|n IH]; simpl; [reflexivity|].
  change (0 + 0)%float with 0%float. exact IH.
Qed.

Lemma fsum_all_nan (l : list float) : l <> [] -> Forall (eq nan) l -> Np.fsum l = nan.
Proof.
  intros Hl Hall. apply fsum_nan. destruct Hall as [|x l <- _]; [congruence|].
  apply list_elem_of_here.
Qed.

(** With more rows than columns the last row of the initial table is all
    zero, its rescaling computes [0.0 / 0.0], and one pass leaves a NaN in
    every cell. *)
Lemma fit_step_all_nan R C :
  (length C < length R)%nat ->
  fit_step R C (initial_table (length R) (length C))
  = replicate (length R) (replicate (length C) nan).
Proof.
  intros Hlt.
  set (T0 := initial_table (length R) (length C)).
  pose proof (initial_table_shaped (length R) (length C)) as Hs0. fold T0 in Hs0.
  pose proof (row_fit_shaped R T0 _ Hs0) as Hs1.
  pose proof (fit_step_shaped R C T0 Hs0) as [Hlen Hrows].
  set (i0 := (length R - 1)%nat).
  assert (Hlast : forall j, (j < length C)%nat -> cell (row_fit R T0) i0 j = Some nan).
  { intros j Hj.
    destruct (shaped_cell _ _ _ i0 j Hs1) as [x Hx]; [unfold i0; lia | exact Hj |].
    rewrite Hx. f_equal.
    apply row_fit_cell in Hx as (r & row & t & _ & Hrow & Ht & ->).
    apply initial_table_zero_row in Hrow as ->; [|unfold i0; lia].
    apply lookup_replicate in Ht as [-> _]. rewrite fsum_zeros.
    change (0 / 0)%float with nan. apply mul_nan_r. }
  symmetry. apply replicate_as_Forall. split; [exact Hlen|].
  apply Forall_lookup. intros i row Hrow. apply replicate_as_Forall. split.
  { apply (Forall_lookup_1 _ _ _ _ Hrows Hrow). }
  apply Forall_lookup. intros j x Hx.
  assert (Hc : cell (fit_step R C T0) i j = Some x) by (unfold cell; rewrite Hrow; exact Hx).
  unfold fit_step in Hc. apply col_fit_cell in Hc as (c & t & Hcj & _ & ->).
  assert (Hj : (j < length C)%nat) by (eapply lookup_lt_Some, Hcj).
  rewrite fsum_nan, div_nan_r, mul_nan_r; [reflexivity|].
  apply list_elem_of_fmap. specialize (Hlast j Hj). unfold cell in Hlast.
  destruct (row_fit R T0 !! i0) as [row0|] eqn:Hrow0; [|discriminate].
  exists row0. simpl in Hlast. rewrite Hlast. split; [reflexivity|].
  eapply list_elem_of_lookup_2, Hrow0.
Qed.

Lemma row_error_all_nan R n_col :
  (1 <= n_col)%nat -> (1 <= length R)%nat ->
  row_error R (replicate (length R) (replicate n_col nan)) = nan.
Proof.
  intros Hc Hr. unfold row_error, Np.sum_axis1. rewrite fmap_replicate.
  rewrite (fsum_all_nan (replicate n_col nan)).
  2: { destruct n_col; [lia | discriminate]. }
  2: { apply Forall_replicate. reflexivity. }
  set (d := zip_with PrimFloat.sub (replicate (length R) nan) R).
  assert (Hd : d = replicate (length R) nan).
  { symmetry. apply replicate_as_Forall. split.
    - unfold d. rewrite length_zip_with, length_replicate. lia.
    - apply Forall_lookup. intros i x. unfold d. rewrite lookup_zip_with.
      destruct (replicate (length R) nan !! i) as [a|] eqn:Ea; [|discriminate].
      apply lookup_replicate in Ea as [-> _]. simpl.
      destruct (R !! i); [|discriminate]. simpl. intros [= <-].
      symmetry. apply sub_nan_l. }
  rewrite Hd. apply fsum_nan. apply list_elem_of_lookup. exists 0%nat.
  rewrite lookup_zip_with. destruct (length R); [lia|]. reflexivity.
Qed.

End ZeroSums.

(** *** Unequal totals *)



(** *** Structural zeros and the row error *)

(** C2, as stated, fails: on the non-negative marginals [2, 0] and [2],
    whose totals are equal, the fitter returns after one pass, the cell
    (1, 0) below the diagonal is not zero and the row error is not at most
    the tolerance (both are NaN). *)
Lemma proportional_fit_nan_table :
  exists T x,
    _proportional_fit 1 (Np.FloatArray [2; 0]%float) (Np.FloatArray [2]%float)
                      default_tolerance = Some (Ok T)
    /\ cell T 1 0 = Some x /\ (x =? 0)%float = false
    /\ (row_error [2; 0]%float T <=? default_tolerance)%float = false.
Proof. exists [[nan]; [nan]], nan. vm_compute. auto. Qed.

(** C2 (amended). For every pair of marginal vectors on which the fitter
    returns a table [T] whose row error is a number (not a NaN), every cell
    of [T] below the diagonal is zero and the row error is at most the
    tolerance. The tolerance is below [+inf], so that the loop is entered. *)
Theorem proportional_fit_zeros_and_row_error fuel row_sum col_sum tolerance T :
  (tolerance <? infinity)%float = true ->
  _proportional_fit fuel row_sum col_sum tolerance = Some (Ok T) ->
  is_nan (row_error (Np.to_float64 row_sum) T) = false ->
  (forall i j, (j < i)%nat -> (i < Np.size row_sum)%nat -> (j < Np.size col_sum)%nat ->
     exists x, cell T i j = Some x /\ (x =? 0)%float = true)
  /\ (row_error (Np.to_float64 row_sum) T <=? tolerance)%float = true.
Proof.
  intros Htol Hfit Hnan. unfold _proportional_fit in Hfit.
  destruct (Np.scalar_eqb _ _); [|discriminate].
  destruct (fit_loop _ _ _ _ _ _) as [T'|] eqn:Hloop; [|discriminate].
  injection Hfit as ->.
  rewrite <- !length_to_float64 in *.
  set (R := Np.to_float64 row_sum) in *. set (C := Np.to_float64 col_sum) in *.
  apply (fit_loop_invariant (below_diagonal_zero_or_nan (length R) (length C))) in Hloop
    as [[Hshape Hzero] Hexit].
  2: { apply fit_step_below_diagonal. }
  2: { apply initial_table_below_diagonal. }
  destruct Hexit as [[_ E] | Hexit]; [congruence|].
  apply is_nan_false in Hnan. split.
  - intros i j Hji Hi Hj.
    destruct (shaped_cell _ _ _ i j Hshape Hi Hj) as [x Hx]. exists x. split; [exact Hx|].
    apply zero_or_nan_eqb; [exact (Hzero i j x Hji Hx)|].
    apply (row_error_not_nan R T i j x); [apply Hshape | exact Hnan | exact Hx].
  - apply leb_of_not_ltb; [exact Hnan | apply ltb_infinity_not_nan, Htol | exact Hexit].
Qed.

(** An instance: the marginals [15, 15] and [10, 20] of the end-to-end example
    of the spec, on which the loop exits after six passes. *)
Lemma proportional_fit_zeros_and_row_error_witness :
  exists T,
    _proportional_fit 10 (Np.IntArray [15; 15]) (Np.IntArray [10; 20]) default_tolerance
    = Some (Ok T)
    /\ (forall i j, (j < i)%nat -> (i < 2)%nat -> (j < 2)%nat ->
          exists x, cell T i j = Some x /\ (x =? 0)%float = true)
    /\ (row_error (Np.to_float64 (Np.IntArray [15; 15]%Z)) T <=? default_tolerance)%float = true.
Proof.
  eexists. split; [vm_compute; reflexivity|].
  apply (proportional_fit_zeros_and_row_error 10 (Np.IntArray [15; 15])
           (Np.IntArray [10; 20]) default_tolerance);
    vm_compute; reflexivity.
Defined.

(** *** Division by a zero row sum or column sum *)




(** *** No bound on the iteration *)




(** ** The assignment sampler *)

Section SamplerFacts.
Context {K : Type} `{Countable K}.
Implicit Types (k : K) (l : list K) (items : list (K * Z)) (capacity : gmap K Z).

Lemma set_random_id w : set_random (w_random w) w = w.
Proof. destruct w; reflexivity. Qed.

(** *** The shuffle permutes *)

Lemma swap_Permutation {A} i j (x : list A) : swap i j x ≡ₚ x.
Proof.
  unfold swap.
  destruct (x !! j) as [xj|] eqn:Ej; [|reflexivity].
  destruct (x !! i) as [xi|] eqn:Ei; [|reflexivity].
  pose proof (lookup_lt_Some _ _ _ Ej) as Hj.
  pose proof (lookup_lt_Some _ _ _ Ei) as Hi.
  apply Permutation_inj. split; [rewrite !length_insert; reflexivity|].
  exists (fun n : nat => if decide (n = i) then j else if decide (n = j) then i else n).
  split.
  - intros a b. repeat case_decide; intros; subst; congruence.
  - intros n. destruct (decide (n = j)) as [->|Hkj].
    + rewrite list_lookup_insert_eq by (rewrite length_insert; exact Hj).
      destruct (decide (j = i)) as [->|]; congruence.
    + rewrite list_lookup_insert_ne by congruence.
      destruct (decide (n = i)) as [->|Hki].
      * rewrite list_lookup_insert_eq by exact Hi. congruence.
      * rewrite list_lookup_insert_ne by congruence. reflexivity.
Qed.

Lemma shuffle_from_spec {A} i : forall (x : list A) w,
  exists (y : list A) g, shuffle_from i x w = (Ok y, set_random g w) /\ y ≡ₚ x.
Proof.
  induction i as [|i IH]; intros x w; simpl.
  - exists x, (w_random w). rewrite set_random_id. split; reflexivity.
  - unfold bind, rand_index.
    destruct (IH (swap (S i) (draws (w_random w) (drawn (w_random w)) `mod` S (S i)) x)
                 (set_random (mkRng (draws (w_random w)) (S (drawn (w_random w)))) w))
      as (x' & g & -> & Hp).
    exists x', g. split; [reflexivity|]. rewrite Hp. apply swap_Permutation.
Qed.

Lemma shuffle_spec {A} (x : list A) w :
  exists (y : list A) g, shuffle x w = (Ok y, set_random g w) /\ y ≡ₚ x.
Proof. apply shuffle_from_spec. Qed.

(** *** The expanded pool *)

Lemma expand_foldl items : forall acc,
  foldl (fun acc '(slot, c) => acc ++ replicate (Z.to_nat c) slot) acc items
  = acc ++ expand items.
Proof.
  unfold expand. induction items as [|[k c] items IH]; intros acc; simpl.
  - rewrite app_nil_r. reflexivity.
  - rewrite IH, (IH (replicate _ _)), app_assoc. reflexivity.
Qed.

Lemma expand_cons k c items : expand ((k, c) :: items) = replicate (Z.to_nat c) k ++ expand items.
Proof. unfold expand at 1. simpl. apply expand_foldl. Qed.

Lemma expand_length items : Z.of_nat (length (expand items)) >= foldr Z.add 0 (items.*2).
Proof.
  induction items as [|[k c] items IH]; [unfold expand; simpl; lia|].
  rewrite expand_cons, length_app, length_replicate, fmap_cons. simpl foldr. lia.
Qed.

Lemma occurrences_app k l1 l2 : occurrences k (l1 ++ l2) = (occurrences k l1 + occurrences k l2)%nat.
Proof. unfold occurrences. rewrite filter_app, length_app. reflexivity. Qed.

Lemma occurrences_replicate k (k' : K) n :
  occurrences k (replicate n k') = if decide (k = k') then n else O.
Proof.
  unfold occurrences. induction n as [|n IH]; simpl.
  - destruct (decide (k = k')); reflexivity.
  - rewrite filter_cons. destruct (decide (k = k')); simpl; rewrite IH; reflexivity.
Qed.

Lemma occurrences_not_in k items : k ∉ items.*1 -> occurrences k (expand items) = O.
Proof.
  induction items as [|[k' c] items IH]; intros Hk; [reflexivity|].
  rewrite expand_cons, occurrences_app, occurrences_replicate.
  simpl in Hk. apply not_elem_of_cons in Hk as [Hne Hk].
  rewrite decide_False by exact Hne. apply IH, Hk.
Qed.

Lemma occurrences_expand k c items :
  NoDup items.*1 -> (k, c) ∈ items -> occurrences k (expand items) = Z.to_nat c.
Proof.
  induction items as [|[k' c'] items IH]; intros Hnd Hin; [inversion Hin|].
  simpl in Hnd. apply NoDup_cons in Hnd as [Hk' Hnd].
  rewrite expand_cons, occurrences_app, occurrences_replicate.
  apply elem_of_cons in Hin as [[= <- <-] | Hin].
  - rewrite decide_True by reflexivity. rewrite occurrences_not_in by exact Hk'. lia.
  - rewrite decide_False.
    + rewrite IH by assumption. reflexivity.
    + intros <-. apply Hk'. apply list_elem_of_fmap. exists (k, c). auto.
Qed.

(** Each slot occurs in the pool as often as its capacity says. *)
Lemma occurrences_pool capacity k :
  occurrences k (expand (map_to_list capacity)) = Z.to_nat (default 0 (capacity !! k)).
Proof.
  destruct (capacity !! k) as [c|] eqn:E; simpl.
  - apply occurrences_expand; [apply NoDup_fst_map_to_list|].
    apply elem_of_map_to_list, E.
  - apply occurrences_not_in. intros ([k' c] & -> & Hin)%list_elem_of_fmap.
    apply elem_of_map_to_list in Hin. simpl in E. congruence.
Qed.

Lemma occurrences_Permutation k l1 l2 : l1 ≡ₚ l2 -> occurrences k l1 = occurrences k l2.
Proof. intros Hp. unfold occurrences. rewrite Hp. reflexivity. Qed.

Lemma occurrences_take k n l : (occurrences k (take n l) <= occurrences k l)%nat.
Proof.
  rewrite <- (take_drop n l) at 2. rewrite occurrences_app. lia.
Qed.

(** *** The two methods *)

Lemma rand_assignment_spec capacity w :
  exists l g, _rand_assignment capacity w = (Ok l, set_random g w)
              /\ l ≡ₚ expand (map_to_list capacity).
Proof. apply shuffle_spec. Qed.

Lemma get_assignments_ok capacity total w :
  capsum_of capacity >= total ->
  exists l g, _get_assignments capacity total w = (Ok (slice_to l total), set_random g w)
              /\ l ≡ₚ expand (map_to_list capacity).
Proof.
  intros Hcap. unfold _get_assignments. rewrite decide_True by exact Hcap.
  destruct (rand_assignment_spec capacity w) as (l & g & E & Hp).
  exists l, g. unfold bind. rewrite E. auto.
Qed.

Lemma get_assignments_length capacity total w l w' :
  0 <= total -> _get_assignments capacity total w = (Ok l, w') ->
  length l = Z.to_nat total.
Proof.
  intros Htot. unfold _get_assignments.
  destruct (decide (capsum_of capacity >= total)) as [Hcap|]; [|discriminate].
  destruct (rand_assignment_spec capacity w) as (l0 & g & E & Hp).
  unfold bind. rewrite E. intros [= <- <-].
  unfold slice_to. destruct (Z.ltb_spec total 0); [lia|].
  apply length_take_le. rewrite Hp.
  pose proof (expand_length (map_to_list capacity)). unfold capsum_of in Hcap. lia.
Qed.
End SamplerFacts.

(** C4. For every capacity mapping (capacities not negative) and every
    required count [total] from 0 to the sum of the capacities,
    [_get_assignments] returns a sequence of exactly [total] slots in which
    each slot occurs at most as often as its capacity (a slot that is not a
    key of the mapping does not occur). *)
Theorem get_assignments_within_capacity {K} `{Countable K}
    (capacity : gmap K Z) (total : Z) (w : world) :
  map_Forall (fun _ c => 0 <= c) capacity ->
  0 <= total -> total <= capsum_of capacity ->
  exists l w',
    _get_assignments capacity total w = (Ok l, w')
    /\ Z.of_nat (length l) = total
    /\ forall k, Z.of_nat (occurrences k l) <= default 0 (capacity !! k).
Proof.
  intros Hpos Htot Hcap.
  destruct (get_assignments_ok capacity total w) as (l & g & E & Hp); [lia|].
  exists (slice_to l total), (set_random g w). split; [exact E|]. split.
  - rewrite (get_assignments_length capacity total w _ _ Htot E). lia.
  - intros k. unfold slice_to. destruct (Z.ltb_spec total 0); [lia|].
    pose proof (occurrences_take k (Z.to_nat total) l) as Hle.
    rewrite (occurrences_Permutation k _ _ Hp), occurrences_pool in Hle.
    destruct (capacity !! k) as [c|] eqn:Ek; simpl in *; [|lia].
    specialize (Hpos k c Ek). simpl in Hpos. lia.
Qed.

(** An instance: four slots out of capacities 2 and 3. *)
Lemma get_assignments_within_capacity_witness :
  exists l w',
    _get_assignments ({[ 100%nat := 2; 101%nat := 3 ]} : gmap nat Z) 4 (sample_world [] [])
    = (Ok l, w')
    /\ Z.of_nat (length l) = 4
    /\ forall k, Z.of_nat (occurrences k l)
                 <= default 0 (({[ 100%nat := 2; 101%nat := 3 ]} : gmap nat Z) !! k).
Proof.
  apply (get_assignments_within_capacity {[ 100%nat := 2; 101%nat := 3 ]} 4
           (sample_world [] [])).
  - intros k c Hk. apply lookup_insert_Some in Hk as [[_ <-] | [_ Hk]]; [lia|].
    apply lookup_singleton_Some in Hk as [_ <-]. lia.
  - lia.
  - vm_compute. discriminate.
Defined.

(** C5. For every capacity mapping and every required count [total] above
    the sum of the capacities, [_get_assignments] raises the
    [AssertionError] whose message names both quantities; it returns no
    sequence and leaves the world as it was. *)
Theorem get_assignments_capacity_exceeded {K} `{Countable K}
    (capacity : gmap K Z) (total : Z) (w : world) :
  total > capsum_of capacity ->
  _get_assignments capacity total w
  = (Raise (AssertionError (capacity_message (capsum_of capacity) total)), w).
Proof.
  intros Hgt. unfold _get_assignments. rewrite decide_False by lia. reflexivity.
Qed.

(** An instance: six slots asked of capacities 2 and 3, with the message. *)
Lemma get_assignments_capacity_exceeded_witness :
  _get_assignments ({[ 100%nat := 2; 101%nat := 3 ]} : gmap nat Z) 6 (sample_world [] [])
  = (Raise (AssertionError "5 available alternatives < 6 required slots"),
     sample_world [] []).
Proof.
  rewrite (get_assignments_capacity_exceeded {[ 100%nat := 2; 101%nat := 3 ]} 6
             (sample_world [] [])) by (vm_compute; reflexivity).
  vm_compute. reflexivity.
Defined.


(** ** The population builder *)

Section Builder.
Implicit Types (w : world) (its : iterators) (new_adults : list Adult) (new_children : list Child).


Lemma new_worker_step w size fleet res prog new_adults its adult_program :
  new_worker (length (w_heap w)) adult_program
             (with_household w size fleet res prog new_adults [] its)
  = match it_office its with
    | [] => (Raise StopIteration, with_household w size fleet res prog new_adults [] its)
    | office :: rest =>
        (Ok tt,
         with_household w size fleet res prog
           (new_adults ++ [mkAdult (length (individuals (w_self w)) + length new_adults)
                                   res office adult_program])
           [] (mkIterators (it_program its) (it_residence its) rest (it_school its)))
    end.
Proof.
  unfold new_worker, bind, attr, next_office, add_object2pool, Household_add_adult,
    self_individuals, modify, ret, bind. simpl.
  rewrite list_lookup_total_middle by reflexivity. simpl.
  destruct (it_office its) as [|office rest]; [reflexivity|]. simpl.
  unfold with_household, set_self, set_heap, set_iter, set_individuals, set_adults. simpl.
  rewrite (alter_app_r_alt _ (w_heap w)) by lia. rewrite Nat.sub_diag. simpl.
  rewrite !app_nil_r, !length_app, !length_fmap, fmap_app, <- !app_assoc.
  reflexivity.
Qed.

Lemma new_student_step w size fleet res prog new_adults new_children its child_program :
  new_student (length (w_heap w)) child_program
              (with_household w size fleet res prog new_adults new_children its)
  = match it_school its with
    | [] => (Raise StopIteration,
             with_household w size fleet res prog new_adults new_children its)
    | school :: rest =>
        (Ok tt,
         with_household w size fleet res prog new_adults
           (new_children ++ [mkChild (length (individuals (w_self w)) + length new_adults
                                      + length new_children)
                                     res school child_program])
           (mkIterators (it_program its) (it_residence its) (it_office its) rest))
    end.
Proof.
  unfold new_student, bind, attr, next_school, add_object2pool, Household_add_child,
    self_individuals, modify, ret, bind. simpl.
  rewrite list_lookup_total_middle by reflexivity. simpl.
  destruct (it_school its) as [|school rest]; [reflexivity|]. simpl.
  unfold with_household, set_self, set_heap, set_iter, set_individuals, set_children. simpl.
  rewrite (alter_app_r_alt _ (w_heap w)) by lia. rewrite Nat.sub_diag. simpl.
  rewrite !length_app, !length_fmap, fmap_app, <- !app_assoc, Nat.add_assoc.
  reflexivity.
Qed.

(** The loop of lines 81-84, from any number of workers already there. *)
Lemma workers_loop w size fleet res prog adult_program (l : list nat) :
  forall new_adults its r w',
    for_each l (fun _ => new_worker (length (w_heap w)) adult_program)
             (with_household w size fleet res prog new_adults [] its) = (r, w') ->
    exists more its',
      w' = with_household w size fleet res prog (new_adults ++ more) [] its'
      /\ Forall (fun a => ad_residence a = res /\ ad_program a = adult_program) more
      /\ it_office its = (ad_office <$> more) ++ it_office its'
      /\ it_program its' = it_program its
      /\ it_residence its' = it_residence its
      /\ it_school its' = it_school its
      /\ match r with
         | Ok _ => length more = length l
         | Raise e => e = StopIteration
         end.
Proof.
  induction l as [|x l IH]; intros new_adults its r w'; simpl.
  - intros [= <- <-]. exists [], its. rewrite app_nil_r. auto 10.
  - unfold bind at 1. rewrite new_worker_step.
    destruct (it_office its) as [|office rest] eqn:Eo.
    + intros [= <- <-]. exists [], its. rewrite app_nil_r, Eo. auto 10.
    + intros Hl. apply IH in Hl as (more & its' & -> & Hall & Hoff & Hp & Hr & Hs & Hres).
      simpl in *. eexists (_ :: more), its'. rewrite <- app_assoc. simpl.
      split; [reflexivity|]. split; [constructor; auto|].
      rewrite Hoff. repeat split; auto.
      destruct r; [lia | auto].
Qed.

Lemma students_loop w size fleet res prog new_adults child_program (l : list nat) :
  forall new_children its r w',
    for_each l (fun _ => new_student (length (w_heap w)) child_program)
             (with_household w size fleet res prog new_adults new_children its) = (r, w') ->
    exists more its',
      w' = with_household w size fleet res prog new_adults (new_children ++ more) its'
      /\ Forall (fun c => ch_residence c = res /\ ch_program c = child_program) more
      /\ it_school its = (ch_school <$> more) ++ it_school its'
      /\ it_program its' = it_program its
      /\ it_residence its' = it_residence its
      /\ it_office its' = it_office its
      /\ match r with
         | Ok _ => length more = length l
         | Raise e => e = StopIteration
         end.
Proof.
  induction l as [|x l IH]; intros new_children its r w'; simpl.
  - intros [= <- <-]. exists [], its. rewrite app_nil_r. auto 10.
  - unfold bind at 1. rewrite new_student_step.
    destruct (it_school its) as [|school rest] eqn:Eo.
    + intros [= <- <-]. exists [], its. rewrite app_nil_r, Eo. auto 10.
    + intros Hl. apply IH in Hl as (more & its' & -> & Hall & Hoff & Hp & Hr & Hs & Hres).
      simpl in *. eexists (_ :: more), its'. rewrite <- app_assoc. simpl.
      split; [reflexivity|]. split; [constructor; auto|].
      rewrite Hoff. repeat split; auto.
      destruct r; [lia | auto].
Qed.

Lemma length_xrange n : length (xrange n) = Z.to_nat n.
Proof. unfold xrange. apply length_seq. Qed.

(** What a call of [add_household] does, whatever its outcome. *)
Lemma add_household_spec size fleet demand w r w' :
  add_household size fleet demand w = (r, w') ->
  (r = Raise StopIteration
   /\ w_heap w' = w_heap w /\ w_self w' = w_self w
   /\ w_random w' = w_random w /\ w_land w' = w_land w
   /\ (length (it_residence (w_iter w')) <= length (it_residence (w_iter w)))%nat)
  \/ exists res prog new_adults new_children its',
       w' = with_household w size fleet res prog new_adults new_children its'
       /\ it_residence (w_iter w) = res :: it_residence its'
       /\ it_program (w_iter w) = prog :: it_program its'
       /\ it_office (w_iter w) = (ad_office <$> new_adults) ++ it_office its'
       /\ it_school (w_iter w) = (ch_school <$> new_children) ++ it_school its'
       /\ Forall (fun a => ad_residence a = res
                           /\ ad_program a = [get_activity demand "home";
                                              get_activity demand "work"] ++ prog)
                 new_adults
       /\ Forall (fun c => ch_residence c = res
                           /\ ch_program c = [get_activity demand "home";
                                              get_activity demand "school"] ++ prog)
                 new_children
       /\ match r with
          | Ok household =>
              household = length (w_heap w)
              /\ length new_adults = Z.to_nat (workers_of size)
              /\ length new_children = Z.to_nat (students_of size)
          | Raise e => e = StopIteration
          end.
Proof.
  unfold add_household. unfold bind at 1. unfold next_residence.
  destruct (it_residence (w_iter w)) as [|res rest] eqn:Er.
  { intros [= <- <-]. left. rewrite Er. auto 10. }
  unfold bind at 1. unfold next_program. simpl.
  destruct (it_program (w_iter w)) as [|prog rest'] eqn:Ep.
  { intros [= <- <-]. left. simpl. repeat split; auto; lia. }
  intros Hrun. right. exists res, prog.
  set (its0 := mkIterators rest' rest (it_office (w_iter w)) (it_school (w_iter w))).
  unfold bind at 1 in Hrun. unfold add_object2pool, self_households, Household_init in Hrun.
  unfold bind, modify, ret, attr in Hrun. simpl in Hrun.
  rewrite list_lookup_total_middle in Hrun by reflexivity. simpl in Hrun.
  replace (set_self _ _) with (with_household w size fleet res prog [] [] its0) in Hrun.
  2: { unfold with_household, set_self, set_heap, set_iter, set_households. simpl.
       rewrite !app_nil_r. reflexivity. }
  destruct (for_each (xrange (workers_of size)) _ _) as [r1 w1] eqn:Hw.
  apply workers_loop in Hw as (ads & its1 & -> & Hads & Hoff & Hp1 & Hr1 & Hs1 & Hres1).
  simpl in Hads, Hoff, Hp1, Hr1, Hs1.
  destruct r1 as [[]|e1].
  2: { injection Hrun as <- <-. exists ads, [], its1. simpl.
       rewrite Hr1, Hp1, Hs1. auto 10. }
  simpl in Hrun. rewrite list_lookup_total_middle in Hrun by reflexivity. simpl in Hrun.
  destruct (for_each (xrange (students_of size)) _ _) as [r2 w2] eqn:Hc.
  apply students_loop in Hc as (chs & its2 & -> & Hchs & Hsch & Hp2 & Hr2 & Ho2 & Hres2).
  simpl in Hchs, Hsch.
  exists ads, chs, its2.
  rewrite Hr2, Hp2, Ho2, Hr1, Hp1, <- Hs1.
  destruct r2 as [[]|e2]; injection Hrun as <- <-; rewrite ?length_xrange in *; auto 12.
Qed.

(** *** Counting households and residences *)

Lemma added_zero w : added 0 w w.
Proof. unfold added, same_frequencies. repeat split; lia. Qed.

Lemma added_trans n m w w1 w2 : added n w w1 -> added m w1 w2 -> added (n + m) w w2.
Proof.
  unfold added, same_frequencies. intros (? & ? & ? & ? & ?) (? & ? & ? & ? & ?).
  repeat split; try lia; congruence.
Qed.

Lemma added_stopped n w w1 w2 : added n w w1 -> stopped w1 w2 -> stopped w w2.
Proof.
  unfold added, stopped, same_frequencies. intros (? & ? & ? & ? & ?) (? & ? & ? & ?).
  repeat split; try lia; congruence.
Qed.

Lemma add_household_added size fleet demand w r w' :
  add_household size fleet demand w = (r, w') ->
  match r with
  | Ok _ => added 1 w w'
  | Raise e => e = StopIteration /\ stopped w w'
  end.
Proof.
  intros [(-> & Hh & Hs & _ & _ & Hr)
         | (res & prog & ads & chs & its' & -> & Hr & _ & _ & _ & _ & _ & Hres)]%add_household_spec.
  - split; [reflexivity|]. unfold stopped, same_frequencies. rewrite Hh, Hs.
    repeat split; lia.
  - assert (Hlen : length (it_residence (w_iter w)) = S (length (it_residence its')))
      by (rewrite Hr; reflexivity).
    destruct r as [h|e].
    + unfold added, same_frequencies, with_household. simpl.
      rewrite !length_app. simpl. repeat split; lia.
    + split; [exact Hres|]. unfold stopped, same_frequencies, with_household. simpl.
      rewrite !length_app. simpl. repeat split; lia.
Qed.

Lemma covers_added n_row n_col n w w' : covers n_row n_col w -> added n w w' -> covers n_row n_col w'.
Proof. unfold covers. intros [? ?] (_ & _ & _ & -> & ->). auto. Qed.

(** A loop whose passes each add their count of households, or stop. *)
Lemma for_each_added {A} (body : A -> M unit) (count : A -> nat) (ok : world -> Prop)
    (l : list A) :
  (forall x w r w', x ∈ l -> ok w -> body x w = (r, w') ->
     match r with
     | Ok _ => added (count x) w w'
     | Raise e => e = StopIteration /\ stopped w w'
     end) ->
  (forall n w w', ok w -> added n w w' -> ok w') ->
  forall w r w', ok w -> for_each l body w = (r, w') ->
    match r with
    | Ok _ => added (sum_list (count <$> l)) w w'
    | Raise e => e = StopIteration /\ stopped w w'
    end.
Proof.
  intros Hbody Hok. induction l as [|x l IH]; intros w r w' Hw; simpl.
  - intros [= <- <-]. apply added_zero.
  - unfold bind. destruct (body x w) as [r1 w1] eqn:E1.
    apply Hbody in E1; [|apply list_elem_of_here|exact Hw].
    destruct r1 as [[]|e1].
    + intros Hl. apply IH in Hl.
      * destruct r as [[]|e]; [eapply added_trans; eauto|].
        destruct Hl as [-> Hst]. split; [reflexivity|]. eapply added_stopped; eauto.
      * intros y v r' v' Hy. apply Hbody. apply list_elem_of_further, Hy.
      * eapply Hok; eauto.
    + intros [= <- <-]. exact E1.
Qed.

Lemma sum_list_ones {A} (l : list A) : sum_list ((fun _ => 1%nat) <$> l) = length l.
Proof. induction l; simpl; auto. Qed.

(** The households of one cell whose value rounds to [n]. *)
Lemma households_of_cell_added table demand i j x n w r w' :
  cell table i j = Some x -> int_round x = Ok n ->
  covers (S i) (S j) w ->
  households_of_cell table demand (i, j) w = (r, w') ->
  match r with
  | Ok _ => added (Z.to_nat n) w w'
  | Raise e => e = StopIteration /\ stopped w w'
  end.
Proof.
  intros Hcell Hround Hcov. unfold households_of_cell, cell in *.
  destruct (table !! i) as [row|] eqn:Hrow; [|discriminate]. simpl in Hcell.
  unfold bind at 1. unfold getitem at 1. rewrite Hrow. unfold ret at 1.
  unfold bind at 1. unfold getitem at 1. rewrite Hcell. unfold ret at 1.
  unfold bind at 1. unfold lift. rewrite Hround.
  intros Hloop.
  eapply (for_each_added _ (fun _ => 1%nat) (covers (S i) (S j))) in Hloop.
  - rewrite sum_list_ones, length_xrange in Hloop. exact Hloop.
  - clear. intros _ w r w' _ [Hi Hj].
    unfold bind at 1. unfold bind at 1. unfold getitem at 1.
    destruct (lookup_lt_is_Some_2 (size_freq (w_self w)) j) as [sz ->]; [lia|].
    unfold ret at 1. unfold bind at 1. unfold getitem at 1.
    destruct (lookup_lt_is_Some_2 (fleet_freq (w_self w)) i) as [fl ->]; [lia|].
    unfold ret at 1. unfold bind at 1.
    destruct (add_household sz.1 fl.1 demand w) as [r1 w1] eqn:E.
    apply add_household_added in E.
    destruct r1 as [h|e]; intros [= <- <-]; exact E.
  - intros m v v'. apply covers_added.
  - exact Hcov.
Qed.

Lemma elem_of_ndrange n_row n_col i j :
  (i, j) ∈ ndrange n_row n_col <-> (i < n_row)%nat /\ (j < n_col)%nat.
Proof.
  unfold ndrange. rewrite list_elem_of_bind. split.
  - intros (i' & Hin & Hi). apply list_elem_of_fmap in Hin as (j' & [= -> ->] & Hj).
    apply elem_of_seq in Hi, Hj. lia.
  - intros [Hi Hj]. exists i. split.
    + apply list_elem_of_fmap. exists j. split; [reflexivity|]. apply elem_of_seq. lia.
    + apply elem_of_seq. lia.
Qed.

Lemma cells_loop_added n_row n_col table demand w r w' :
  (forall i j, (i < n_row)%nat -> (j < n_col)%nat ->
     exists x n, cell table i j = Some x /\ int_round x = Ok n) ->
  covers n_row n_col w ->
  for_each (ndrange n_row n_col) (households_of_cell table demand) w = (r, w') ->
  match r with
  | Ok _ => added (households_asked n_row n_col table) w w'
  | Raise e => e = StopIteration /\ stopped w w'
  end.
Proof.
  intros Hcells Hcov Hloop.
  eapply (for_each_added _ (fun ij => Z.to_nat (rounded_cell table ij))
            (covers n_row n_col)) in Hloop; [exact Hloop | | | exact Hcov].
  - intros [i j] v r1 v1 [Hi Hj]%elem_of_ndrange [Hr Hc] Hrun.
    destruct (Hcells i j Hi Hj) as (x & n & Hx & Hn).
    replace (rounded_cell table (i, j)) with n
      by (unfold rounded_cell; simpl; rewrite Hx, Hn; reflexivity).
    eapply households_of_cell_added; eauto. unfold covers. lia.
  - intros m v v'. apply covers_added.
Qed.

Lemma get_assignments_outcome {K} `{Countable K} (capacity : gmap K Z) total w r w' :
  _get_assignments capacity total w = (r, w') ->
  (exists g, w' = set_random g w)
  /\ match r with
     | Ok l => 0 <= total -> length l = Z.to_nat total
     | Raise e => exists msg, e = AssertionError msg
     end.
Proof.
  intros Hrun. destruct (decide (capsum_of capacity >= total)) as [Hcap|Hcap].
  - destruct (get_assignments_ok capacity total w Hcap) as (l & g & E & _).
    rewrite E in Hrun. injection Hrun as <- <-. split; [eauto|].
    intros Htot. eapply get_assignments_length; eauto.
  - unfold _get_assignments in Hrun. rewrite decide_False in Hrun by exact Hcap.
    injection Hrun as <- <-. split; [|eauto].
    exists (w_random w). symmetry. apply set_random_id.
Qed.

Lemma program_freq_of_outcome demand l e :
  program_freq_of demand l = Raise e -> e = KeyError.
Proof.
  unfold program_freq_of.
  assert (Hgen : forall acc : result (gmap program Z),
             (forall e', acc = Raise e' -> e' = KeyError) ->
             foldl (fun acc '(id_, freq) =>
                      match acc with
                      | Raise e => Raise e
                      | Ok d => match programs demand !! id_ with
                                | Some p => Ok (<[p := freq]> d)
                                | None => Raise KeyError
                                end
                      end) acc l = Raise e -> e = KeyError).
  { induction l as [|[id_ freq] l IH]; intros acc Hacc; simpl; [apply Hacc|].
    apply IH. intros e'. destruct acc as [d|e0]; [|apply Hacc].
    destruct (programs demand !! id_); [discriminate | congruence]. }
  apply Hgen. discriminate.
Qed.

(** What follows the fit: on a table whose cells all round, and whose total
    rounds to [hhnum]. *)
Lemma households_of_table_outcome n_row n_col table demand hhnum w r w' :
  int_round (Np.sum_all table) = Ok hhnum -> 0 <= hhnum ->
  (forall i j, (i < n_row)%nat -> (j < n_col)%nat ->
     exists x n, cell table i j = Some x /\ int_round x = Ok n) ->
  covers n_row n_col w ->
  households_of_table n_row n_col table demand w = (r, w') ->
  match r with
  | Ok _ =>
      length (w_heap w') = (length (w_heap w) + households_asked n_row n_col table)%nat
      /\ length (households (w_self w'))
         = (length (households (w_self w)) + households_asked n_row n_col table)%nat
      /\ (households_asked n_row n_col table <= Z.to_nat hhnum)%nat
  | Raise e =>
      (e = StopIteration \/ e = KeyError \/ exists msg, e = AssertionError msg)
      /\ (length (w_heap w) <= length (w_heap w') <= length (w_heap w) + Z.to_nat hhnum)%nat
  end.
Proof.
  intros Hround Hpos Hcells Hcov. unfold households_of_table.
  unfold bind at 1. unfold lift at 1. rewrite Hround.
  unfold bind at 1. unfold bind at 1. unfold lift at 1.
  destruct (program_freq_of demand (prog_freq (w_self w))) as [pf|e0] eqn:Epf.
  2: { intros [= <- <-]. apply program_freq_of_outcome in Epf as ->.
       split; [auto|lia]. }
  unfold bind at 1.
  destruct (_get_assignments pf hhnum w) as [r1 w1] eqn:E1.
  apply get_assignments_outcome in E1 as [[g1 ->] H1].
  destruct r1 as [progs|e1].
  2: { intros [= <- <-]. destruct H1 as [msg ->]. split; [eauto|simpl; lia]. }
  unfold bind at 1. unfold bind at 1.
  destruct (_get_assignments (get_capacities _ "home") hhnum (set_random g1 w))
    as [r2 w2] eqn:E2.
  apply get_assignments_outcome in E2 as [[g2 ->] H2].
  destruct r2 as [residences|e2].
  2: { intros [= <- <-]. destruct H2 as [msg ->]. split; [eauto|simpl; lia]. }
  specialize (H2 Hpos).
  unfold bind at 1.
  destruct (_get_assignments (get_capacities _ "work") _ _) as [r3 w3] eqn:E3.
  apply get_assignments_outcome in E3 as [[g3 ->] H3].
  destruct r3 as [offices|e3].
  2: { intros [= <- <-]. destruct H3 as [msg ->]. split; [eauto|simpl; lia]. }
  unfold bind at 1.
  destruct (_get_assignments (get_capacities _ "school") _ _) as [r4 w4] eqn:E4.
  apply get_assignments_outcome in E4 as [[g4 ->] H4].
  destruct r4 as [schools|e4].
  2: { intros [= <- <-]. destruct H4 as [msg ->]. split; [eauto|simpl; lia]. }
  unfold bind at 1. unfold modify at 1.
  intros Hloop. apply cells_loop_added in Hloop; [|exact Hcells|exact Hcov].
  destruct r as [[]|e].
  - destruct Hloop as (Hh & Hp & Hr & _). simpl in Hh, Hp, Hr. lia.
  - destruct Hloop as [-> (Hh1 & Hh2 & _)]. simpl in Hh1, Hh2. split; [auto|lia].
Qed.

(** *** The fitted table of non-negative frequencies *)

Lemma unsigned_or_nan_zero : unsigned_or_nan 0%float.
Proof. reflexivity. Qed.

Lemma unsigned_table_row T i row :
  unsigned_table T -> T !! i = Some row -> Forall unsigned_or_nan row.
Proof.
  intros HT Hrow. apply Forall_lookup. intros j x Hx.
  apply (HT i j x). unfold cell. rewrite Hrow. exact Hx.
Qed.

Lemma unsigned_table_column T j :
  unsigned_table T ->
  Forall unsigned_or_nan ((fun row => default 0%float (row !! j)) <$> T).
Proof.
  intros HT. apply Forall_fmap, Forall_lookup. intros i row Hrow. simpl.
  destruct (row !! j) as [x|] eqn:Hx; simpl; [|apply unsigned_or_nan_zero].
  apply (HT i j x). unfold cell. rewrite Hrow. exact Hx.
Qed.

Lemma fsum_unsigned (l : list float) : Forall unsigned_or_nan l -> unsigned_or_nan (Np.fsum l).
Proof.
  apply fsum_closed; [apply unsigned_or_nan_add | apply unsigned_or_nan_zero].
Qed.

Lemma fit_step_unsigned R C T :
  Forall unsigned_or_nan R -> Forall unsigned_or_nan C ->
  unsigned_table T -> unsigned_table (fit_step R C T).
Proof.
  intros HR HC HT.
  assert (H1 : unsigned_table (row_fit R T)).
  { intros i j x (r & row & t & Hr & Hrow & Ht & ->)%row_fit_cell.
    apply unsigned_or_nan_mul; [apply (Forall_lookup_1 _ _ _ _ HR Hr)|].
    apply unsigned_or_nan_div.
    - apply (HT i j t). unfold cell. rewrite Hrow. exact Ht.
    - apply fsum_unsigned, (unsigned_table_row T i row HT Hrow). }
  intros i j x (c & t & Hc & Ht & ->)%col_fit_cell.
  apply unsigned_or_nan_mul; [apply (Forall_lookup_1 _ _ _ _ HC Hc)|].
  apply unsigned_or_nan_div; [apply (H1 i j t Ht)|].
  apply fsum_unsigned, unsigned_table_column, H1.
Qed.

Lemma initial_table_unsigned n_row n_col : unsigned_table (initial_table n_row n_col).
Proof.
  intros i j x (_ & _ & ->)%initial_table_cell.
  destruct (decide (j < i)%nat); reflexivity.
Qed.

(** The table that the fitter returns for unsigned marginals. *)
Lemma proportional_fit_table fuel row_sum col_sum tolerance T :
  _proportional_fit fuel row_sum col_sum tolerance = Some (Ok T) ->
  shaped (Np.size row_sum) (Np.size col_sum) T
  /\ (Forall unsigned_or_nan (Np.to_float64 row_sum) ->
      Forall unsigned_or_nan (Np.to_float64 col_sum) -> unsigned_table T).
Proof.
  unfold _proportional_fit. destruct (Np.scalar_eqb _ _); [|discriminate].
  destruct (fit_loop _ _ _ _ _ _) as [T'|] eqn:Hloop; [|discriminate].
  intros [= ->]. rewrite <- !length_to_float64 in *.
  set (R := Np.to_float64 row_sum) in *. set (C := Np.to_float64 col_sum) in *.
  split.
  - apply (fit_loop_invariant (shaped (length R) (length C))) in Hloop as [H _];
      [exact H | apply fit_step_shaped | apply initial_table_shaped].
  - intros HR HC.
    apply (fit_loop_invariant unsigned_table) in Hloop as [H _];
      [exact H | intros; apply fit_step_unsigned; assumption | apply initial_table_unsigned].
Qed.

Lemma size_array (l : list Z) : Np.size (Np.array l) = length l.
Proof. destruct l; reflexivity. Qed.

Lemma array_unsigned (l : list Z) :
  Forall (fun z => 0 <= z) l -> Forall unsigned_or_nan (Np.to_float64 (Np.array l)).
Proof.
  intros Hl. destruct l as [|z l]; [constructor|].
  unfold Np.array, Np.to_float64. apply Forall_fmap. eapply Forall_impl; [exact Hl|].
  intros. apply unsigned_or_nan_float_of_int64. assumption.
Qed.

(** *** Cells that round *)

Lemma int_round_ok x : ~ overflowed x -> exists n, int_round x = Ok n.
Proof.
  unfold overflowed, int_round. destruct (Prim2SF x); try tauto; eauto.
Qed.

Lemma int_round_not_overflowed x n : int_round x = Ok n -> ~ overflowed x.
Proof.
  unfold overflowed, int_round. destruct (Prim2SF x); try discriminate; tauto.
Qed.

Lemma add_overflowed_l x y :
  unsigned_or_nan x -> unsigned_or_nan y -> overflowed x -> overflowed (x + y)%float.
Proof.
  unfold unsigned_or_nan, overflowed. rewrite add_spec. unfold SF64add.
  destruct (Prim2SF x) as [sx|sx| |sx mx ex], (Prim2SF y) as [sy|sy| |sy my ey];
    simpl; try tauto; intros -> ->; simpl; tauto.
Qed.

Lemma add_overflowed_r x y :
  unsigned_or_nan x -> unsigned_or_nan y -> overflowed y -> overflowed (x + y)%float.
Proof.
  unfold unsigned_or_nan, overflowed. rewrite add_spec. unfold SF64add.
  destruct (Prim2SF x) as [sx|sx| |sx mx ex], (Prim2SF y) as [sy|sy| |sy my ey];
    simpl; try tauto; intros -> ->; simpl; tauto.
Qed.

Lemma foldl_add_overflowed (l : list float) : forall a,
  unsigned_or_nan a -> Forall unsigned_or_nan l ->
  overflowed a \/ Exists overflowed l -> overflowed (foldl PrimFloat.add a l).
Proof.
  induction l as [|x l IH]; intros a Ha Hl Hov; simpl.
  - destruct Hov as [Hov|Hov]; [exact Hov | inversion Hov].
  - apply Forall_cons in Hl as [Hx Hl].
    apply IH; [apply unsigned_or_nan_add; assumption | exact Hl |].
    destruct Hov as [Hov|Hov].
    + left. apply add_overflowed_l; assumption.
    + apply Exists_cons in Hov as [Hov|Hov]; [|right; exact Hov].
      left. apply add_overflowed_r; assumption.
Qed.

Lemma elem_of_concat {A} (x : A) (ls : list (list A)) :
  x ∈ concat ls <-> exists l, l ∈ ls /\ x ∈ l.
Proof.
  rewrite list_elem_of_In, in_concat. setoid_rewrite list_elem_of_In. reflexivity.
Qed.

Lemma cell_in_concat T i j x : cell T i j = Some x -> x ∈ concat T.
Proof.
  unfold cell. destruct (T !! i) as [row|] eqn:Hrow; [|discriminate]. simpl.
  intros Hx. apply elem_of_concat. exists row.
  split; eapply list_elem_of_lookup_2; eassumption.
Qed.

Lemma concat_unsigned T : unsigned_table T -> Forall unsigned_or_nan (concat T).
Proof.
  intros HT. apply Forall_forall. intros x (row & Hrow & Hx)%elem_of_concat.
  apply list_elem_of_lookup in Hrow as [i Hrow], Hx as [j Hx].
  apply (HT i j x). unfold cell. rewrite Hrow. exact Hx.
Qed.

(** When the total of an unsigned table rounds, so does each cell. *)
Lemma cells_round n_row n_col T hhnum :
  shaped n_row n_col T -> unsigned_table T ->
  int_round (Np.sum_all T) = Ok hhnum ->
  forall i j, (i < n_row)%nat -> (j < n_col)%nat ->
    exists x n, cell T i j = Some x /\ int_round x = Ok n.
Proof.
  intros Hs HT Hsum i j Hi Hj.
  destruct (shaped_cell _ _ _ i j Hs Hi Hj) as [x Hx]. exists x.
  destruct (int_round_ok x) as [n Hn]; [|eauto].
  intros Hov. apply (int_round_not_overflowed _ _ Hsum).
  unfold Np.sum_all, Np.fsum. apply foldl_add_overflowed.
  - apply unsigned_or_nan_zero.
  - apply concat_unsigned, HT.
  - right. apply Exists_exists. exists x. split; [|exact Hov].
    eapply cell_in_concat, Hx.
Qed.

Lemma rounded_cell_nonneg T ij : unsigned_table T -> 0 <= rounded_cell T ij.
Proof.
  intros HT. unfold rounded_cell.
  destruct (cell T ij.1 ij.2) as [x|] eqn:Hx; [|lia].
  destruct (int_round x) as [n|e] eqn:Hn; [|lia].
  eapply int_round_unsigned; [|exact Hn]. eapply HT, Hx.
Qed.

Lemma households_asked_rounded_cells n_row n_col T :
  unsigned_table T ->
  Z.of_nat (households_asked n_row n_col T) = rounded_cells n_row n_col T.
Proof.
  intros HT. unfold households_asked, rounded_cells.
  induction (ndrange n_row n_col) as [|ij l IH]; [reflexivity|].
  rewrite !fmap_cons. cbn [sum_list foldr].
  pose proof (rounded_cell_nonneg T ij HT). rewrite <- IH. unfold id. lia.
Qed.

Lemma sum_all_unsigned T : unsigned_table T -> unsigned_or_nan (Np.sum_all T).
Proof. intros HT. apply fsum_unsigned, concat_unsigned, HT. Qed.

(** The two halves of the claim on [create_households], for a fitted table
    whose total rounds to [hhnum]. *)
Lemma create_households_outcome fuel demand w T hhnum :
  Forall (fun p => 0 <= p.2) (size_freq (w_self w)) ->
  Forall (fun p => 0 <= p.2) (fleet_freq (w_self w)) ->
  _proportional_fit fuel (Np.array (fleet_freq (w_self w)).*2)
                    (Np.array (size_freq (w_self w)).*2) default_tolerance = Some (Ok T) ->
  int_round (Np.sum_all T) = Ok hhnum ->
  let n_row := length (fleet_freq (w_self w)) in
  let n_col := length (size_freq (w_self w)) in
  exists r w',
    create_households fuel demand w = Some (r, w')
    /\ match r with
       | Ok _ =>
           Z.of_nat (length (w_heap w'))
           = Z.of_nat (length (w_heap w)) + rounded_cells n_row n_col T
           /\ Z.of_nat (length (households (w_self w')))
              = Z.of_nat (length (households (w_self w))) + rounded_cells n_row n_col T
           /\ rounded_cells n_row n_col T <= hhnum
       | Raise e =>
           (e = StopIteration \/ e = KeyError \/ exists msg, e = AssertionError msg)
           /\ Z.of_nat (length (w_heap w')) <= Z.of_nat (length (w_heap w)) + hhnum
       end.
Proof.
  intros Hsize Hfleet Hfit Hround n_row n_col.
  pose proof (proportional_fit_table _ _ _ _ _ Hfit) as [Hshape Hunsigned].
  rewrite !size_array, !length_fmap in Hshape. fold n_row n_col in Hshape.
  assert (HT : unsigned_table T).
  { apply Hunsigned; apply array_unsigned, Forall_fmap;
      (eapply Forall_impl; [eassumption|]); auto. }
  assert (Hpos : 0 <= hhnum) by (eapply int_round_unsigned; [apply sum_all_unsigned, HT | exact Hround]).
  unfold create_households. rewrite Hfit, !size_array, !length_fmap. fold n_row n_col.
  destruct (households_of_table n_row n_col T demand w) as [r w'] eqn:Hrun.
  exists r, w'. split; [reflexivity|].
  apply (households_of_table_outcome _ _ _ _ hhnum) in Hrun;
    [ | exact Hround | exact Hpos | eapply cells_round; eassumption | unfold covers; lia ].
  rewrite <- (households_asked_rounded_cells n_row n_col T HT).
  destruct r as [[]|e]; [lia|]. destruct Hrun as [He Hh]. split; [exact He | lia].
Qed.
End Builder.

(** *** The members of a household *)

(** The members that a call of [add_household] that returns has created:
    [workers_of size] adults and [students_of size] children, in the
    household and in the flat lists of the population. *)
Lemma add_household_members size fleet demand w household w' :
  add_household size fleet demand w = (Ok household, w') ->
  exists hh,
    w_heap w' = w_heap w ++ [hh] /\ household = length (w_heap w)
    /\ hh_size hh = size
    /\ length (hh_adults hh) = Z.to_nat (workers_of size)
    /\ length (hh_children hh) = Z.to_nat (students_of size)
    /\ adults (w_self w') = adults (w_self w) ++ hh_adults hh
    /\ children (w_self w') = children (w_self w) ++ hh_children hh.
Proof.
  intros [(E & _)
         | (res & prog & ads & chs & its' & -> & _ & _ & _ & _ & _ & _ & -> & Ha & Hc)
         ]%add_household_spec; [discriminate|].
  eexists. split; [reflexivity|]. simpl. auto 10.
Qed.

(** C1 (the code at the failing input). A call of [add_household] with
    size 3 that returns has created a household of 3 adults and 1 child:
    four members for a household of size 3, where the claim has 3 workers
    and no student. *)
Theorem add_household_size_three fleet demand w household w' :
  add_household 3 fleet demand w = (Ok household, w') ->
  let hh := w_heap w' !!! household in
  hh_size hh = 3
  /\ length (hh_adults hh) = 3%nat
  /\ length (hh_children hh) = 1%nat
  /\ length (adults (w_self w')) = (length (adults (w_self w)) + 3)%nat
  /\ length (children (w_self w')) = (length (children (w_self w)) + 1)%nat.
Proof.
  intros (hh & Hheap & -> & Hsize & Ha & Hc & Hads & Hchs)%add_household_members.
  cbv zeta. rewrite Hheap, list_lookup_total_middle by reflexivity.
  rewrite Hads, Hchs, !length_app, Ha, Hc. auto.
Qed.

(** An instance: the call on [sample_world_streams] returns. *)
Lemma add_household_size_three_witness :
  exists household w',
    add_household 3 0 sample_demand sample_world_streams = (Ok household, w')
    /\ hh_size (w_heap w' !!! household) = 3
    /\ length (hh_adults (w_heap w' !!! household)) = 3%nat
    /\ length (hh_children (w_heap w' !!! household)) = 1%nat.
Proof.
  eassert (E : add_household 3 0 sample_demand sample_world_streams = (Ok _, _))
    by (vm_compute; reflexivity).
  do 2 eexists. split; [exact E|].
  destruct (add_household_size_three 0 sample_demand sample_world_streams _ _ E)
    as (H1 & H2 & H3 & _).
  auto.
Defined.

(** C9. Whatever the outcome of a call of [add_household], either it has
    created nothing, or it has created one household [hh], the adults and
    children it has appended to the lists of the population are those of
    [hh], each of them has the residence of [hh] (also through
    [get_residence]), and that residence is the one item that the call has
    drawn from the iterator of residences. *)
Theorem add_household_shares_residence size fleet demand w r w' :
  add_household size fleet demand w = (r, w') ->
  (w_heap w' = w_heap w /\ w_self w' = w_self w)
  \/ exists hh,
       w_heap w' = w_heap w ++ [hh]
       /\ adults (w_self w') = adults (w_self w) ++ hh_adults hh
       /\ children (w_self w') = children (w_self w) ++ hh_children hh
       /\ individuals (w_self w')
          = individuals (w_self w) ++ (IAdult <$> hh_adults hh) ++ (IChild <$> hh_children hh)
       /\ Forall (fun a => ad_residence a = hh_residence hh) (hh_adults hh)
       /\ Forall (fun c => ch_residence c = hh_residence hh) (hh_children hh)
       /\ Forall (fun x => get_residence x = hh_residence hh)
                 ((IAdult <$> hh_adults hh) ++ (IChild <$> hh_children hh))
       /\ it_residence (w_iter w) = hh_residence hh :: it_residence (w_iter w').
Proof.
  intros [(_ & Hh & Hs & _)
         | (res & prog & ads & chs & its' & -> & Hr & _ & _ & _ & Hads & Hchs & _)
         ]%add_household_spec; [left; auto | right].
  assert (Ha : Forall (fun a => ad_residence a = res) ads)
    by (eapply Forall_impl; [exact Hads|]; intros a [? _]; assumption).
  assert (Hc : Forall (fun c => ch_residence c = res) chs)
    by (eapply Forall_impl; [exact Hchs|]; intros c [? _]; assumption).
  eexists. split; [reflexivity|]. simpl. repeat split; auto.
  apply Forall_app. split; apply Forall_fmap; assumption.
Qed.

(** An instance: the same call, its household and the residence it drew. *)
Lemma add_household_shares_residence_witness :
  exists w',
    add_household 3 0 sample_demand sample_world_streams = (Ok 0%nat, w')
    /\ exists hh,
         w_heap w' = w_heap sample_world_streams ++ [hh]
         /\ Forall (fun a => ad_residence a = hh_residence hh) (hh_adults hh)
         /\ Forall (fun c => ch_residence c = hh_residence hh) (hh_children hh)
         /\ it_residence (w_iter sample_world_streams)
            = hh_residence hh :: it_residence (w_iter w').
Proof.
  eassert (E : add_household 3 0 sample_demand sample_world_streams = (Ok 0%nat, _))
    by (vm_compute; reflexivity).
  eexists. split; [exact E|].
  destruct (add_household_shares_residence 3 0 sample_demand sample_world_streams _ _ E)
    as [[Hh _] | (hh & Hheap & _ & _ & _ & Ha & Hc & _ & Hr)].
  - vm_compute in Hh. discriminate.
  - exists hh. auto.
Defined.

(** *** The number of households *)

(** Two tables that the fitter returns: the cells of the first ask for 6
    households where [hhnum] is 5, those of the second for 6 where [hhnum]
    is 7. *)
Lemma fitted_table_asks_more :
  exists T hhnum,
    _proportional_fit 9 (Np.array [2; 1; 2]) (Np.array [1; 1; 3]) default_tolerance
    = Some (Ok T)
    /\ int_round (Np.sum_all T) = Ok hhnum /\ rounded_cells 3 3 T > hhnum.
Proof.
  eexists. eexists. split; [vm_compute; reflexivity|]. split; vm_compute; reflexivity.
Qed.

Lemma fitted_table_asks_less :
  exists T hhnum,
    _proportional_fit 9 (Np.array [4; 1; 2]) (Np.array [1; 2; 4]) default_tolerance
    = Some (Ok T)
    /\ int_round (Np.sum_all T) = Ok hhnum /\ rounded_cells 3 3 T < hhnum.
Proof.
  eexists. eexists. split; [vm_compute; reflexivity|]. split; vm_compute; reflexivity.
Qed.

(** C10. With non-negative frequencies: (1) a run of [create_households]
    that completes has created as many households as the sum over all cells
    of the fitted table of [int(round(T[i, j]))], a sum that is then at most
    [hhnum = int(round(T.sum()))]; (2) when that sum exceeds [hhnum], the
    call raises: [StopIteration] from an exhausted iterator, unless an
    assignment request or a program lookup has failed before, and it has
    created at most [hhnum] households by then; (3) the sum does differ from
    [hhnum], in either direction, on tables that the fitter returns. *)
Theorem create_households_count fuel demand w :
  Forall (fun p => 0 <= p.2) (size_freq (w_self w)) ->
  Forall (fun p => 0 <= p.2) (fleet_freq (w_self w)) ->
  let n_row := length (fleet_freq (w_self w)) in
  let n_col := length (size_freq (w_self w)) in
  let fitted := _proportional_fit fuel (Np.array (fleet_freq (w_self w)).*2)
                                  (Np.array (size_freq (w_self w)).*2) default_tolerance in
  (forall w', create_households fuel demand w = Some (Ok tt, w') ->
     exists T hhnum,
       fitted = Some (Ok T) /\ int_round (Np.sum_all T) = Ok hhnum
       /\ Z.of_nat (length (w_heap w'))
          = Z.of_nat (length (w_heap w)) + rounded_cells n_row n_col T
       /\ Z.of_nat (length (households (w_self w')))
          = Z.of_nat (length (households (w_self w))) + rounded_cells n_row n_col T
       /\ rounded_cells n_row n_col T <= hhnum)
  /\ (forall T hhnum,
        fitted = Some (Ok T) -> int_round (Np.sum_all T) = Ok hhnum ->
        rounded_cells n_row n_col T > hhnum ->
        exists e w',
          create_households fuel demand w = Some (Raise e, w')
          /\ (e = StopIteration \/ e = KeyError \/ exists msg, e = AssertionError msg)
          /\ Z.of_nat (length (w_heap w')) <= Z.of_nat (length (w_heap w)) + hhnum)
  /\ (exists T hhnum,
        _proportional_fit 9 (Np.array [2; 1; 2]) (Np.array [1; 1; 3]) default_tolerance
        = Some (Ok T)
        /\ int_round (Np.sum_all T) = Ok hhnum /\ rounded_cells 3 3 T > hhnum)
  /\ (exists T hhnum,
        _proportional_fit 9 (Np.array [4; 1; 2]) (Np.array [1; 2; 4]) default_tolerance
        = Some (Ok T)
        /\ int_round (Np.sum_all T) = Ok hhnum /\ rounded_cells 3 3 T < hhnum).
Proof.
  intros Hsize Hfleet n_row n_col fitted. split; [|split; [|split]].
  - intros w' Hrun.
    destruct fitted as [[T|e]|] eqn:Hfit; unfold fitted in Hfit.
    3: { unfold create_households in Hrun. rewrite Hfit in Hrun. discriminate. }
    2: { unfold create_households in Hrun. rewrite Hfit in Hrun. discriminate. }
    destruct (int_round (Np.sum_all T)) as [hhnum|e] eqn:Hround.
    2: { unfold create_households in Hrun. rewrite Hfit in Hrun.
         unfold households_of_table, bind, lift in Hrun. rewrite Hround in Hrun.
         discriminate. }
    destruct (create_households_outcome fuel demand w T hhnum Hsize Hfleet Hfit Hround)
      as (r & w1 & E & Hres).
    rewrite E in Hrun. injection Hrun as -> ->. exists T, hhnum. auto.
  - intros T hhnum Hfit Hround Hgt.
    destruct (create_households_outcome fuel demand w T hhnum Hsize Hfleet Hfit Hround)
      as (r & w1 & E & Hres).
    destruct r as [[]|e]; [fold n_row n_col in Hres; lia|].
    exists e, w1. split; [exact E | exact Hres].
  - exact fitted_table_asks_more.
  - exact fitted_table_asks_less.
Qed.

(** An instance: the run on [sample_world_long] completes with the 6
    households that its table asks for, [hhnum] being 7. *)
Lemma create_households_count_witness :
  exists w' T hhnum,
    create_households 9 sample_demand sample_world_long = Some (Ok tt, w')
    /\ _proportional_fit 9 (Np.array [4; 1; 2]) (Np.array [1; 2; 4]) default_tolerance
       = Some (Ok T)
    /\ int_round (Np.sum_all T) = Ok hhnum
    /\ Z.of_nat (length (w_heap w')) = 0 + rounded_cells 3 3 T
    /\ rounded_cells 3 3 T <= hhnum.
Proof.
  eassert (E : create_households 9 sample_demand sample_world_long = Some (Ok tt, _))
    by (vm_compute; reflexivity).
  assert (Hs : Forall (fun p : Z * Z => 0 <= p.2) (size_freq (w_self sample_world_long)))
    by (vm_compute; repeat constructor; discriminate).
  assert (Hf : Forall (fun p : Z * Z => 0 <= p.2) (fleet_freq (w_self sample_world_long)))
    by (vm_compute; repeat constructor; discriminate).
  destruct (create_households_count 9 sample_demand sample_world_long Hs Hf)
    as (Hok & _).
  destruct (Hok _ E) as (T & hhnum & Hfit & Hround & Hheap & _ & Hle).
  eexists. exists T, hhnum. split; [exact E|]. auto.
Defined.

(** The run on the first of the two tables: the iterators are exhausted
    after the fifth household, of the six that the table asks for. *)
Example create_households_stops_early :
  exists w',
    create_households 9 sample_demand sample_world_short = Some (Raise StopIteration, w')
    /\ length (w_heap w') = 5%nat.
Proof. eexists. split; [vm_compute; reflexivity | reflexivity]. Qed.

(** * Further properties of the code *)

(** ** More on the proportional fitter *)

Lemma unsigned_or_nan_not_negative x : unsigned_or_nan x -> (x <? 0)%float = false.
Proof.
  unfold unsigned_or_nan. rewrite ltb_spec. change (Prim2SF 0) with (S754_zero false).
  destruct (Prim2SF x) as [s|s| |s m e]; simpl; try reflexivity; intros ->; reflexivity.
Qed.

Lemma ltb_zero_ltb_infinity x : (x <? 0)%float = true -> (x <? infinity)%float = true.
Proof.
  rewrite !ltb_spec. change (Prim2SF 0) with (S754_zero false).
  change (Prim2SF infinity) with (S754_infinity false).
  destruct (Prim2SF x) as [s|[]| |[] m e]; simpl; try discriminate; reflexivity.
Qed.

(** X1. A table that [_proportional_fit] returns has as many rows as
    [row_sum] has entries, and each row as many cells as [col_sum] has
    entries. *)
Theorem proportional_fit_shape fuel row_sum col_sum tolerance T :
  _proportional_fit fuel row_sum col_sum tolerance = Some (Ok T) ->
  length T = Np.size row_sum
  /\ forall i row, T !! i = Some row -> length row = Np.size col_sum.
Proof.
  intros [[Hlen Hrows] _]%proportional_fit_table. split; [exact Hlen|].
  intros i row Hrow. apply (Forall_lookup_1 _ _ _ _ Hrows Hrow).
Qed.

Lemma proportional_fit_shape_witness :
  exists T,
    _proportional_fit 10 (Np.IntArray [15; 15]) (Np.IntArray [10; 20; 0]) default_tolerance
    = Some (Ok T)
    /\ length T = 2%nat
    /\ forall i row, T !! i = Some row -> length row = 3%nat.
Proof.
  eexists. split; [vm_compute; reflexivity|].
  apply (proportional_fit_shape 10 (Np.IntArray [15; 15]) (Np.IntArray [10; 20; 0])
           default_tolerance).
  vm_compute. reflexivity.
Defined.

(** X2. When no entry of the two marginal vectors is negative (each has a
    clear sign bit, or is a NaN), no cell of a table that
    [_proportional_fit] returns is negative: each cell has a clear sign bit
    or is a NaN, so [cell < 0] is false. *)
Theorem proportional_fit_no_negative_cell fuel row_sum col_sum tolerance T :
  Forall unsigned_or_nan (Np.to_float64 row_sum) ->
  Forall unsigned_or_nan (Np.to_float64 col_sum) ->
  _proportional_fit fuel row_sum col_sum tolerance = Some (Ok T) ->
  forall i j x, cell T i j = Some x ->
    unsigned_or_nan x /\ (x <? 0)%float = false.
Proof.
  intros HR HC [_ HT]%proportional_fit_table i j x Hx.
  specialize (HT HR HC i j x Hx). split; [exact HT|].
  apply unsigned_or_nan_not_negative, HT.
Qed.

Lemma proportional_fit_no_negative_cell_witness :
  exists T,
    _proportional_fit 10 (Np.array [15; 15]) (Np.array [10; 20]) default_tolerance
    = Some (Ok T)
    /\ forall i j x, cell T i j = Some x -> unsigned_or_nan x /\ (x <? 0)%float = false.
Proof.
  eexists. split; [vm_compute; reflexivity|].
  apply (proportional_fit_no_negative_cell 10 (Np.array [15; 15]) (Np.array [10; 20])
           default_tolerance).
  - apply array_unsigned. repeat constructor; discriminate.
  - apply array_unsigned. repeat constructor; discriminate.
  - vm_compute. reflexivity.
Defined.




Section FitterMore.

Lemma unsigned_or_nan_square x : unsigned_or_nan (x * x)%float.
Proof.
  unfold unsigned_or_nan. rewrite mul_spec. unfold SF64mul.
  destruct (Prim2SF x) as [[]|[]| |[] m e]; simpl; try reflexivity;
    apply binary_round_aux_sign.
Qed.

Lemma row_error_unsigned R T : unsigned_or_nan (row_error R T).
Proof.
  unfold row_error. cbv zeta. apply fsum_unsigned.
  apply Forall_forall. intros x Hx.
  apply list_elem_of_lookup in Hx as [i Hx].
  apply lookup_zip_with_Some in Hx as (d & d' & -> & Hd & Hd').
  assert (d' = d) as -> by congruence. apply unsigned_or_nan_square.
Qed.

(** Nothing with a clear sign bit is below a negative number. *)
Lemma ltb_negative_unsigned tol x :
  (tol <? 0)%float = true -> unsigned_or_nan x -> (tol <? x)%float = false -> x = nan.
Proof.
  unfold unsigned_or_nan. rewrite !ltb_spec. change (Prim2SF 0) with (S754_zero false).
  intros Htol Hx Hlt. apply Prim2SF_nan_iff. revert Htol Hx Hlt. unfold SFltb.
  destruct (Prim2SF tol) as [st|[]| |[] mt et], (Prim2SF x) as [sx|sx| |sx mx ex];
    simpl; try discriminate; try reflexivity; intros _ ->; discriminate.
Qed.
End FitterMore.

(** X4. With a negative tolerance [_proportional_fit] returns no fitted
    table: the row error is a sum of squares, never below the tolerance, so
    the loop exits only once the row error is a NaN. *)
Theorem proportional_fit_negative_tolerance fuel row_sum col_sum tolerance T :
  (tolerance <? 0)%float = true ->
  _proportional_fit fuel row_sum col_sum tolerance = Some (Ok T) ->
  row_error (Np.to_float64 row_sum) T = nan.
Proof.
  intros Htol. unfold _proportional_fit. destruct (Np.scalar_eqb _ _); [|discriminate].
  destruct (fit_loop _ _ _ _ _ _) as [T'|] eqn:Hloop; [|discriminate].
  intros [= ->].
  apply (fit_loop_invariant (fun _ => True)) in Hloop as [_ [[_ Hinf] | Herr]]; auto.
  - rewrite (ltb_zero_ltb_infinity _ Htol) in Hinf. discriminate.
  - eapply ltb_negative_unsigned; [exact Htol | apply row_error_unsigned | exact Herr].
Qed.

Lemma proportional_fit_negative_tolerance_witness :
  exists T,
    _proportional_fit 1 (Np.IntArray [1; 1]) (Np.IntArray [2]) (-1)%float = Some (Ok T)
    /\ row_error (Np.to_float64 (Np.IntArray [1; 1])) T = nan.
Proof.
  eexists. split; [vm_compute; reflexivity|].
  apply (proportional_fit_negative_tolerance 1 (Np.IntArray [1; 1]) (Np.IntArray [2])
           (-1)%float).
  - vm_compute. reflexivity.
  - vm_compute. reflexivity.
Defined.

(** ** More on the assignment sampler *)

Section SamplerMore.
Context {K : Type} `{Countable K}.

Lemma expand_length_exact (items : list (K * Z)) :
  Forall (fun kc => 0 <= kc.2) items ->
  Z.of_nat (length (expand items)) = foldr Z.add 0 (items.*2).
Proof.
  induction 1 as [|[k c] items Hc _ IH]; [reflexivity|].
  rewrite expand_cons, length_app, length_replicate, fmap_cons. simpl in *. lia.
Qed.

Lemma pool_length (capacity : gmap K Z) :
  map_Forall (fun _ c => 0 <= c) capacity ->
  Z.of_nat (length (expand (map_to_list capacity))) = capsum_of capacity.
Proof.
  intros Hpos. apply expand_length_exact, Forall_forall.
  intros [k c] Hin%elem_of_map_to_list. exact (Hpos k c Hin).
Qed.
End SamplerMore.

(** X5. [_rand_assignment] always returns, and the list it returns holds
    each key of the mapping exactly as often as its capacity (not at all
    when the capacity is zero or negative), and nothing else. *)
Theorem rand_assignment_counts {K} `{Countable K} (capacity : gmap K Z) (w : world) :
  exists l w',
    _rand_assignment capacity w = (Ok l, w')
    /\ forall k, occurrences k l = Z.to_nat (default 0 (capacity !! k)).
Proof.
  destruct (rand_assignment_spec capacity w) as (l & g & E & Hp).
  exists l, (set_random g w). split; [exact E|].
  intros k. rewrite (occurrences_Permutation k _ _ Hp). apply occurrences_pool.
Qed.

(** X6. A negative [total] is not refused by [_get_assignments]: with
    capacities that are not negative the assertion holds, and the slice
    [assignment[0:total]] drops the last [-total] slots of the shuffled
    pool, so that [max(0, capsum + total)] slots are returned. *)
Theorem get_assignments_negative_total {K} `{Countable K}
    (capacity : gmap K Z) (total : Z) (w : world) :
  map_Forall (fun _ c => 0 <= c) capacity ->
  total < 0 ->
  exists l w',
    _get_assignments capacity total w = (Ok l, w')
    /\ Z.of_nat (length l) = Z.max 0 (capsum_of capacity + total).
Proof.
  intros Hpos Htot.
  assert (0 <= capsum_of capacity).
  { rewrite <- (pool_length capacity Hpos). lia. }
  destruct (get_assignments_ok capacity total w) as (l & g & E & Hp); [lia|].
  exists (slice_to l total), (set_random g w). split; [exact E|].
  unfold slice_to. destruct (Z.ltb_spec total 0); [|lia].
  rewrite length_take, Hp. pose proof (pool_length capacity Hpos). lia.
Qed.

Lemma get_assignments_negative_total_witness :
  exists l w',
    _get_assignments ({[ 100%nat := 2; 101%nat := 3 ]} : gmap nat Z) (-1) (sample_world [] [])
    = (Ok l, w')
    /\ Z.of_nat (length l)
       = Z.max 0 (capsum_of ({[ 100%nat := 2; 101%nat := 3 ]} : gmap nat Z) + -1).
Proof.
  apply (get_assignments_negative_total {[ 100%nat := 2; 101%nat := 3 ]} (-1)
           (sample_world [] [])).
  - intros k c Hk. apply lookup_insert_Some in Hk as [[_ <-] | [_ Hk]]; [simpl; lia|].
    apply lookup_singleton_Some in Hk as [_ <-]. simpl. lia.
  - lia.
Defined.

(** X7. Asked for as many slots as the capacities add up to (none of them
    negative), [_get_assignments] returns the whole shuffled pool: each slot
    occurs exactly as often as its capacity. *)
Theorem get_assignments_whole_pool {K} `{Countable K}
    (capacity : gmap K Z) (w : world) :
  map_Forall (fun _ c => 0 <= c) capacity ->
  exists l w',
    _get_assignments capacity (capsum_of capacity) w = (Ok l, w')
    /\ forall k, Z.of_nat (occurrences k l) = default 0 (capacity !! k).
Proof.
  intros Hpos. pose proof (pool_length capacity Hpos) as Hlen.
  destruct (get_assignments_ok capacity (capsum_of capacity) w) as (l & g & E & Hp); [lia|].
  exists (slice_to l (capsum_of capacity)), (set_random g w). split; [exact E|].
  intros k. unfold slice_to. destruct (Z.ltb_spec (capsum_of capacity) 0); [lia|].
  rewrite take_ge by (rewrite Hp; lia).
  rewrite (occurrences_Permutation k _ _ Hp), occurrences_pool.
  destruct (capacity !! k) as [c|] eqn:Ek; simpl; [|reflexivity].
  specialize (Hpos k c Ek). simpl in Hpos. lia.
Qed.

Lemma get_assignments_whole_pool_witness :
  exists l w',
    _get_assignments ({[ 100%nat := 2; 101%nat := 3 ]} : gmap nat Z)
      (capsum_of ({[ 100%nat := 2; 101%nat := 3 ]} : gmap nat Z)) (sample_world [] [])
    = (Ok l, w')
    /\ forall k, Z.of_nat (occurrences k l)
                 = default 0 (({[ 100%nat := 2; 101%nat := 3 ]} : gmap nat Z) !! k).
Proof.
  apply (get_assignments_whole_pool {[ 100%nat := 2; 101%nat := 3 ]} (sample_world [] [])).
  intros k c Hk. apply lookup_insert_Some in Hk as [[_ <-] | [_ Hk]]; [simpl; lia|].
    apply lookup_singleton_Some in Hk as [_ <-]. simpl. lia.
Defined.

(** ** More on [add_household] *)

Section BuilderMore.
Implicit Types (w : world) (its : iterators) (new_adults : list Adult) (new_children : list Child).

(** The loop of lines 81-84 when it raises: the offices have run out
    before the last worker. *)
Lemma workers_loop_stop w size fleet res prog adult_program (l : list nat) :
  forall new_adults its e w',
    for_each l (fun _ => new_worker (length (w_heap w)) adult_program)
             (with_household w size fleet res prog new_adults [] its) = (Raise e, w') ->
    exists more,
      w' = with_household w size fleet res prog (new_adults ++ more) []
             (mkIterators (it_program its) (it_residence its) [] (it_school its))
      /\ length more = length (it_office its)
      /\ (length more < length l)%nat.
Proof.
  induction l as [|x l IH]; intros new_adults its e w'; simpl.
  - intros [=].
  - unfold bind at 1. rewrite new_worker_step.
    destruct (it_office its) as [|office rest] eqn:Eo.
    + intros [= <- <-]. exists []. rewrite app_nil_r. simpl.
      split; [|split; [reflexivity|lia]]. destruct its; simpl in *; subst; reflexivity.
    + intros Hl. apply IH in Hl as (more & -> & Hlen & Hlt). simpl in *.
      eexists (_ :: more). rewrite <- app_assoc. simpl.
      split; [reflexivity|]. split; lia.
Qed.

Lemma students_loop_stop w size fleet res prog new_adults child_program (l : list nat) :
  forall new_children its e w',
    for_each l (fun _ => new_student (length (w_heap w)) child_program)
             (with_household w size fleet res prog new_adults new_children its)
    = (Raise e, w') ->
    exists more,
      w' = with_household w size fleet res prog new_adults (new_children ++ more)
             (mkIterators (it_program its) (it_residence its) (it_office its) [])
      /\ length more = length (it_school its)
      /\ (length more < length l)%nat.
Proof.
  induction l as [|x l IH]; intros new_children its e w'; simpl.
  - intros [=].
  - unfold bind at 1. rewrite new_student_step.
    destruct (it_school its) as [|school rest] eqn:Eo.
    + intros [= <- <-]. exists []. rewrite app_nil_r. simpl.
      split; [|split; [reflexivity|lia]]. destruct its; simpl in *; subst; reflexivity.
    + intros Hl. apply IH in Hl as (more & -> & Hlen & Hlt). simpl in *.
      eexists (_ :: more). rewrite <- app_assoc. simpl.
      split; [reflexivity|]. split; lia.
Qed.

(** A call that finds a residence and a program, and raises: the household
    is on the heap and in the population, short of members. *)
Lemma add_household_stop size fleet demand w e w' res rest prog rest' :
  it_residence (w_iter w) = res :: rest ->
  it_program (w_iter w) = prog :: rest' ->
  add_household size fleet demand w = (Raise e, w') ->
  exists new_adults new_children its',
    w' = with_household w size fleet res prog new_adults new_children its'
    /\ ((length new_adults < Z.to_nat (workers_of size))%nat
        /\ length new_adults = length (it_office (w_iter w))
        /\ new_children = [] /\ it_office its' = []
        /\ it_school its' = it_school (w_iter w)
        \/ length new_adults = Z.to_nat (workers_of size)
           /\ (length new_children < Z.to_nat (students_of size))%nat
           /\ length new_children = length (it_school (w_iter w))
           /\ it_school its' = []).
Proof.
  intros Er Ep. unfold add_household. unfold bind at 1. unfold next_residence. rewrite Er.
  unfold bind at 1. unfold next_program. simpl. rewrite Ep.
  intros Hrun.
  set (its0 := mkIterators rest' rest (it_office (w_iter w)) (it_school (w_iter w))).
  unfold bind at 1 in Hrun. unfold add_object2pool, self_households, Household_init in Hrun.
  unfold bind, modify, ret, attr in Hrun. simpl in Hrun.
  rewrite list_lookup_total_middle in Hrun by reflexivity. simpl in Hrun.
  replace (set_self _ _) with (with_household w size fleet res prog [] [] its0) in Hrun.
  2: { unfold with_household, set_self, set_heap, set_iter, set_households. simpl.
       rewrite !app_nil_r. reflexivity. }
  destruct (for_each (xrange (workers_of size)) _ _) as [r1 w1] eqn:Hw.
  destruct r1 as [[]|e1].
  - apply workers_loop in Hw as (ads & its1 & -> & _ & _ & _ & _ & Hs1 & Hres1).
    simpl in Hs1, Hres1. rewrite length_xrange in Hres1.
    simpl in Hrun. rewrite list_lookup_total_middle in Hrun by reflexivity. simpl in Hrun.
    destruct (for_each (xrange (students_of size)) _ _) as [r2 w2] eqn:Hc.
    destruct r2 as [[]|e2]; [discriminate|]. injection Hrun as <- <-.
    apply students_loop_stop in Hc as (chs & -> & Hlen & Hlt).
    rewrite length_xrange in Hlt. rewrite Hs1 in Hlen.
    eexists ads, chs, _. split; [reflexivity|]. right. simpl. auto.
  - injection Hrun as <- <-.
    apply workers_loop_stop in Hw as (ads & -> & Hlen & Hlt).
    rewrite length_xrange in Hlt. simpl in Hlen.
    eexists ads, [], _. split; [reflexivity|]. left. simpl. auto 10.
Qed.
End BuilderMore.

(** X8. A call of [add_household] that returns has built a household of
    the given size and fleet whose program is the next item of the program
    iterator; the workplaces of its adults are the next items of the office
    iterator, in order, and the schools of its children the next items of
    the school iterator; each adult follows [(home, work)] and then the
    program of the household, each child [(home, school)] and then that
    program; and [get_workplace] of the individuals that the call appends
    to the population gives those offices, then those schools. *)
Theorem add_household_places_in_order size fleet demand w household w' :
  add_household size fleet demand w = (Ok household, w') ->
  let hh := w_heap w' !!! household in
  hh_size hh = size /\ hh_fleet hh = fleet
  /\ it_program (w_iter w) = hh_program hh :: it_program (w_iter w')
  /\ it_office (w_iter w) = (ad_office <$> hh_adults hh) ++ it_office (w_iter w')
  /\ it_school (w_iter w) = (ch_school <$> hh_children hh) ++ it_school (w_iter w')
  /\ Forall (fun a => ad_program a = [get_activity demand "home"; get_activity demand "work"]
                                      ++ hh_program hh) (hh_adults hh)
  /\ Forall (fun c => ch_program c = [get_activity demand "home"; get_activity demand "school"]
                                      ++ hh_program hh) (hh_children hh)
  /\ get_workplace <$> individuals (w_self w')
     = (get_workplace <$> individuals (w_self w))
       ++ (ad_office <$> hh_adults hh) ++ (ch_school <$> hh_children hh).
Proof.
  intros [(E & _)
         | (res & prog & ads & chs & its' & -> & _ & Hp & Ho & Hs & Hads & Hchs & -> & _)
         ]%add_household_spec; [discriminate|].
  cbv zeta. unfold with_household. simpl.
  rewrite list_lookup_total_middle by reflexivity. simpl.
  repeat split; auto.
  - eapply Forall_impl; [exact Hads|]. intros a [_ ?]; assumption.
  - eapply Forall_impl; [exact Hchs|]. intros c [_ ?]; assumption.
  - rewrite !fmap_app, <- !list_fmap_compose. reflexivity.
Qed.

Lemma add_household_places_in_order_witness :
  exists household w',
    add_household 3 0 sample_demand sample_world_streams = (Ok household, w')
    /\ it_office (w_iter sample_world_streams)
       = (ad_office <$> hh_adults (w_heap w' !!! household)) ++ it_office (w_iter w')
    /\ it_school (w_iter sample_world_streams)
       = (ch_school <$> hh_children (w_heap w' !!! household)) ++ it_school (w_iter w').
Proof.
  eassert (E : add_household 3 0 sample_demand sample_world_streams = (Ok _, _))
    by (vm_compute; reflexivity).
  do 2 eexists. split; [exact E|].
  destruct (add_household_places_in_order 3 0 sample_demand sample_world_streams _ _ E)
    as (_ & _ & _ & Ho & Hs & _).
  split; [exact Ho | exact Hs].
Defined.

(** X9. For every size other than 3, a call of [add_household] that
    returns has created as many members (adults and children together, and
    as many individuals of the population) as the size says, and none for a
    size of zero or less. *)
Theorem add_household_members_match_size size fleet demand w household w' :
  size <> 3 ->
  add_household size fleet demand w = (Ok household, w') ->
  let hh := w_heap w' !!! household in
  Z.of_nat (length (hh_adults hh) + length (hh_children hh)) = Z.max 0 size
  /\ Z.of_nat (length (individuals (w_self w')))
     = Z.of_nat (length (individuals (w_self w))) + Z.max 0 size.
Proof.
  intros Hsize [(E & _)
         | (res & prog & ads & chs & its' & -> & _ & _ & _ & _ & _ & _ & -> & Ha & Hc)
         ]%add_household_spec; [discriminate|].
  cbv zeta. unfold with_household. simpl.
  rewrite list_lookup_total_middle by reflexivity. simpl.
  rewrite !length_app, !length_fmap, Ha, Hc.
  unfold workers_of, students_of.
  destruct (Z.gtb_spec size 3), (Z.ltb_spec size 3); lia.
Qed.

Lemma add_household_members_match_size_witness :
  exists household w',
    add_household 2 0 sample_demand sample_world_streams = (Ok household, w')
    /\ Z.of_nat (length (hh_adults (w_heap w' !!! household))
                 + length (hh_children (w_heap w' !!! household))) = 2.
Proof.
  eassert (E : add_household 2 0 sample_demand sample_world_streams = (Ok _, _))
    by (vm_compute; reflexivity).
  do 2 eexists. split; [exact E|].
  destruct (add_household_members_match_size 2 0 sample_demand sample_world_streams _ _
              ltac:(lia) E) as [H1 _].
  exact H1.
Defined.

(** X10. When the residence iterator or the program iterator is
    exhausted, [add_household] raises [StopIteration] and creates nothing;
    a residence that was drawn before the program iterator failed is lost:
    the residence iterator has moved on, the other iterators have not. *)
Theorem add_household_exhausted size fleet demand w :
  it_residence (w_iter w) = [] \/ it_program (w_iter w) = [] ->
  exists w',
    add_household size fleet demand w = (Raise StopIteration, w')
    /\ w_heap w' = w_heap w /\ w_self w' = w_self w
    /\ it_residence (w_iter w') = tail (it_residence (w_iter w))
    /\ it_program (w_iter w') = it_program (w_iter w)
    /\ it_office (w_iter w') = it_office (w_iter w)
    /\ it_school (w_iter w') = it_school (w_iter w).
Proof.
  intros Hex. unfold add_household. unfold bind at 1. unfold next_residence.
  destruct (it_residence (w_iter w)) as [|res rest] eqn:Er.
  { eexists. split; [reflexivity|]. rewrite Er. auto 10. }
  destruct Hex as [[=]|Ep].
  unfold bind at 1. unfold next_program. simpl. rewrite Ep.
  eexists. split; [reflexivity|]. simpl. auto 10.
Qed.

Lemma add_household_exhausted_witness :
  exists w',
    add_household 2 0 sample_demand
      (set_iter (mkIterators [] [100%nat] [200%nat] []) (sample_world [] []))
    = (Raise StopIteration, w')
    /\ w_heap w' = [] /\ it_residence (w_iter w') = [].
Proof.
  destruct (add_household_exhausted 2 0 sample_demand
              (set_iter (mkIterators [] [100%nat] [200%nat] []) (sample_world [] [])))
    as (w' & E & Hh & _ & Hr & _); [right; reflexivity|].
  exists w'. split; [exact E|]. split; [exact Hh | exact Hr].
Defined.

(** X11. When [add_household] raises after it has found a residence and a
    program, the error is [StopIteration], and the household stays on the
    heap and in the population with the members created so far, fewer than
    its size asks for: either the offices ran out (as many adults as there
    were offices left, no child, no school drawn), or the schools did (all
    the adults, as many children as there were schools left). *)
Theorem add_household_keeps_partial_household size fleet demand w e w' :
  it_residence (w_iter w) <> [] -> it_program (w_iter w) <> [] ->
  add_household size fleet demand w = (Raise e, w') ->
  e = StopIteration
  /\ exists hh,
       w_heap w' = w_heap w ++ [hh]
       /\ households (w_self w') = households (w_self w) ++ [length (w_heap w)]
       /\ adults (w_self w') = adults (w_self w) ++ hh_adults hh
       /\ children (w_self w') = children (w_self w) ++ hh_children hh
       /\ (length (hh_adults hh) + length (hh_children hh)
           < Z.to_nat (workers_of size) + Z.to_nat (students_of size))%nat
       /\ (length (hh_adults hh) = length (it_office (w_iter w))
           /\ hh_children hh = [] /\ it_office (w_iter w') = []
           /\ it_school (w_iter w') = it_school (w_iter w)
           \/ length (hh_adults hh) = Z.to_nat (workers_of size)
              /\ length (hh_children hh) = length (it_school (w_iter w))
              /\ it_school (w_iter w') = []).
Proof.
  intros Hr Hp Hrun.
  assert (He : e = StopIteration).
  { apply add_household_spec in Hrun as [([= ->] & _) | (? & ? & ? & ? & ? & _ & _ & _ & _ & _ & _ & _ & ->)]; reflexivity. }
  split; [exact He|].
  destruct (it_residence (w_iter w)) as [|res rest] eqn:Er; [congruence|].
  destruct (it_program (w_iter w)) as [|prog rest'] eqn:Ep; [congruence|].
  destruct (add_household_stop _ _ _ _ _ _ _ _ _ _ Er Ep Hrun)
    as (ads & chs & its' & -> & Hcase).
  eexists. split; [reflexivity|]. simpl.
  repeat split.
  - destruct Hcase as [(? & ? & -> & _) | (? & ? & _)]; simpl; lia.
  - destruct Hcase as [(? & ? & -> & ? & ?) | (? & ? & ? & ?)]; [left|right]; auto.
Qed.

Lemma add_household_keeps_partial_household_witness :
  exists e w' hh,
    add_household 3 0 sample_demand
      (set_iter (mkIterators [[7%nat]] [100%nat] [200%nat] [300%nat]) (sample_world [] []))
    = (Raise e, w')
    /\ e = StopIteration /\ w_heap w' = [hh] /\ adults (w_self w') = hh_adults hh.
Proof.
  eassert (E : add_household 3 0 sample_demand
                 (set_iter (mkIterators [[7%nat]] [100%nat] [200%nat] [300%nat])
                           (sample_world [] [])) = (Raise _, _))
    by (vm_compute; reflexivity).
  destruct (add_household_keeps_partial_household 3 0 sample_demand
              (set_iter (mkIterators [[7%nat]] [100%nat] [200%nat] [300%nat])
                        (sample_world [] [])) _ _
              ltac:(discriminate) ltac:(discriminate) E)
    as (He & hh & Hh & _ & Ha & _).
  do 2 eexists. exists hh. split; [exact E|]. split; [exact He|]. split; [exact Hh | exact Ha].
Defined.

(** ** More on the program frequencies *)

Section ProgramFreq.
Variable demand : Demand.

Lemma program_freq_of_foldl l : program_freq_of demand l = foldl (freq_step demand) (Ok ∅) l.
Proof. reflexivity. Qed.

Lemma freq_foldl_raise l e : foldl (freq_step demand) (Raise e) l = Raise e.
Proof. induction l as [|[id_ f] l IH]; [reflexivity | exact IH]. Qed.

Lemma freq_foldl_outcome l : forall d0,
  match foldl (freq_step demand) (Ok d0) l with
  | Ok _ => Forall (fun q => is_Some (programs demand !! q.1)) l
  | Raise e => e = KeyError /\ Exists (fun q => programs demand !! q.1 = None) l
  end.
Proof.
  induction l as [|[id_ f] l IH]; intros d0; [constructor|].
  simpl. destruct (programs demand !! id_) as [p|] eqn:E.
  - specialize (IH (<[p := f]> d0)).
    destruct (foldl (freq_step demand) _ l) as [d|e].
    + constructor; [simpl; eauto | exact IH].
    + destruct IH as [-> IH]. split; [reflexivity|]. apply Exists_cons_tl, IH.
  - rewrite freq_foldl_raise. split; [reflexivity|]. apply Exists_cons_hd, E.
Qed.

Lemma freq_foldl_lookup l : forall d0 d p,
  foldl (freq_step demand) (Ok d0) l = Ok d ->
  (Forall (fun q => programs demand !! q.1 <> Some p) l -> d !! p = d0 !! p)
  /\ (forall l1 id_ f l2,
        l = l1 ++ (id_, f) :: l2 -> programs demand !! id_ = Some p ->
        Forall (fun q => programs demand !! q.1 <> Some p) l2 -> d !! p = Some f).
Proof.
  induction l as [|[id0 f0] l IH]; intros d0 d p; simpl.
  - intros [= <-]. split; [reflexivity|]. intros [|? ?] ? ? ? [=].
  - destruct (programs demand !! id0) as [p0|] eqn:E0;
      [|rewrite freq_foldl_raise; discriminate].
    intros Hd. destruct (IH _ _ p Hd) as [Hnone Hlast]. split.
    + intros [Hp Hl]%Forall_cons. simpl in Hp.
      rewrite (Hnone Hl). apply lookup_insert_ne. congruence.
    + intros [|q l1] id_ f l2 Hl Hp Hl2; simpl in Hl.
      * injection Hl as -> -> ->. rewrite (Hnone Hl2).
        assert (p0 = p) as -> by congruence. apply lookup_insert_eq.
      * injection Hl as _ ->. eapply Hlast; eauto.
Qed.
End ProgramFreq.

(** X12. The dict of line 107 is built exactly when every label of
    [prog_freq] is a key of [demand.programs]; otherwise a [KeyError] is
    raised, and no other error ever is. *)
Theorem program_freq_of_missing_label demand prog_freq :
  match program_freq_of demand prog_freq with
  | Ok _ => Forall (fun q => is_Some (programs demand !! q.1)) prog_freq
  | Raise e => e = KeyError /\ Exists (fun q => programs demand !! q.1 = None) prog_freq
  end.
Proof. rewrite program_freq_of_foldl. apply freq_foldl_outcome. Qed.

(** X13. In the dict of line 107 a program has the frequency of the
    last entry of [prog_freq] whose label stands for it (so that the
    frequencies of earlier entries for the same program are dropped), and a
    program that no label stands for is not a key. *)
Theorem program_freq_of_last_wins demand prog_freq d p :
  program_freq_of demand prog_freq = Ok d ->
  (Forall (fun q => programs demand !! q.1 <> Some p) prog_freq -> d !! p = None)
  /\ (forall l1 id_ f l2,
        prog_freq = l1 ++ (id_, f) :: l2 -> programs demand !! id_ = Some p ->
        Forall (fun q => programs demand !! q.1 <> Some p) l2 -> d !! p = Some f).
Proof.
  rewrite program_freq_of_foldl. intros Hd.
  destruct (freq_foldl_lookup demand _ _ _ p Hd) as [Hnone Hlast]. split.
  - intros Hall. rewrite (Hnone Hall). apply lookup_empty.
  - exact Hlast.
Qed.

Lemma program_freq_of_last_wins_witness :
  exists d,
    program_freq_of (mkDemand (fun _ => 0%nat) {[ 0%nat := [7%nat]; 1%nat := [7%nat] ]})
                    [(0%nat, 25); (1%nat, 10)] = Ok d
    /\ d !! [7%nat] = Some 10.
Proof.
  eexists. split; [vm_compute; reflexivity|].
  refine (proj2 (program_freq_of_last_wins
            (mkDemand (fun _ => 0%nat) {[ 0%nat := [7%nat]; 1%nat := [7%nat] ]})
            [(0%nat, 25); (1%nat, 10)] _ [7%nat] _) [(0%nat, 25)] 1%nat 10 [] eq_refl _ _).
  - vm_compute. reflexivity.
  - vm_compute. reflexivity.
  - constructor.
Defined.

(** ** More on [create_households] *)

Section CreateMore.
Implicit Types (w : world) (T : Np.ndarray2).

Lemma int_round_raise x e : int_round x = Raise e -> e = ValueError \/ e = OverflowError.
Proof. unfold int_round. destruct (Prim2SF x); intros [=]; auto. Qed.

(** An infinity or a NaN stays one whatever is added to it. *)
Lemma overflowed_add_l x y : overflowed x -> overflowed (x + y)%float.
Proof.
  unfold overflowed. rewrite add_spec. unfold SF64add.
  destruct (Prim2SF x) as [sx|[]| |sx mx ex], (Prim2SF y) as [sy|[]| |sy my ey];
    simpl; tauto.
Qed.

Lemma overflowed_add_r x y : overflowed y -> overflowed (x + y)%float.
Proof.
  unfold overflowed. rewrite add_spec. unfold SF64add.
  destruct (Prim2SF x) as [sx|[]| |sx mx ex], (Prim2SF y) as [sy|[]| |sy my ey];
    simpl; tauto.
Qed.

Lemma foldl_add_overflowed_any (l : list float) : forall a,
  overflowed a \/ Exists overflowed l -> overflowed (foldl PrimFloat.add a l).
Proof.
  induction l as [|x l IH]; intros a Hov; simpl.
  - destruct Hov as [Hov|Hov]; [exact Hov | inversion Hov].
  - apply IH. destruct Hov as [Hov|Hov].
    + left. apply overflowed_add_l, Hov.
    + apply Exists_cons in Hov as [Hov|Hov]; [|right; exact Hov].
      left. apply overflowed_add_r, Hov.
Qed.

(** When the total of a table rounds, so does each cell. *)
Lemma cells_round_any n_row n_col T hhnum :
  shaped n_row n_col T ->
  int_round (Np.sum_all T) = Ok hhnum ->
  forall i j, (i < n_row)%nat -> (j < n_col)%nat ->
    exists x n, cell T i j = Some x /\ int_round x = Ok n.
Proof.
  intros Hs Hsum i j Hi Hj.
  destruct (shaped_cell _ _ _ i j Hs Hi Hj) as [x Hx]. exists x.
  destruct (int_round_ok x) as [n Hn]; [|eauto].
  intros Hov. apply (int_round_not_overflowed _ _ Hsum).
  unfold Np.sum_all, Np.fsum. apply foldl_add_overflowed_any.
  right. apply Exists_exists. exists x. split; [|exact Hov].
  apply cell_in_concat in Hx. exact Hx.
Qed.

(** The only error of the fitter is the assertion on the totals. *)
Lemma proportional_fit_raise fuel row_sum col_sum tolerance e :
  _proportional_fit fuel row_sum col_sum tolerance = Some (Raise e) ->
  e = AssertionError unequal_subsums.
Proof.
  unfold _proportional_fit. destruct (Np.scalar_eqb _ _).
  - destruct (fit_loop _ _ _ _ _ _); discriminate.
  - intros [= <-]. reflexivity.
Qed.

(** Lines 99-118: what precedes the loop over the cells either raises,
    having drawn random numbers only, or sets the four iterators. *)
Lemma households_of_table_prelude n_row n_col table demand w r w' :
  households_of_table n_row n_col table demand w = (r, w') ->
  (exists e g, r = Raise e /\ w' = set_random g w
     /\ (e = ValueError \/ e = OverflowError \/ e = KeyError
         \/ exists msg, e = AssertionError msg))
  \/ (exists hhnum g its,
        int_round (Np.sum_all table) = Ok hhnum
        /\ for_each (ndrange n_row n_col) (households_of_cell table demand)
             (set_iter its (set_random g w)) = (r, w')).
Proof.
  unfold households_of_table.
  unfold bind at 1. unfold lift at 1.
  destruct (int_round (Np.sum_all table)) as [hhnum|e0] eqn:Hround.
  2: { intros [= <- <-]. left. exists e0, (w_random w). rewrite set_random_id.
       apply int_round_raise in Hround. intuition. }
  unfold bind at 1. unfold bind at 1. unfold lift at 1.
  destruct (program_freq_of demand (prog_freq (w_self w))) as [pf|e0] eqn:Epf.
  2: { intros [= <- <-]. apply program_freq_of_outcome in Epf as ->.
       left. exists KeyError, (w_random w). rewrite set_random_id. auto 10. }
  unfold bind at 1.
  destruct (_get_assignments pf hhnum w) as [r1 w1] eqn:E1.
  apply get_assignments_outcome in E1 as [[g1 ->] H1].
  destruct r1 as [progs|e1].
  2: { intros [= <- <-]. left. exists e1, g1. auto 10. }
  unfold bind at 1. unfold bind at 1.
  destruct (_get_assignments (get_capacities _ "home") hhnum (set_random g1 w))
    as [r2 w2] eqn:E2.
  apply get_assignments_outcome in E2 as [[g2 ->] H2].
  destruct r2 as [residences|e2].
  2: { intros [= <- <-]. left. exists e2, g2. auto 10. }
  unfold bind at 1.
  destruct (_get_assignments (get_capacities _ "work") _ _) as [r3 w3] eqn:E3.
  apply get_assignments_outcome in E3 as [[g3 ->] H3].
  destruct r3 as [offices|e3].
  2: { intros [= <- <-]. left. exists e3, g3. auto 10. }
  unfold bind at 1.
  destruct (_get_assignments (get_capacities _ "school") _ _) as [r4 w4] eqn:E4.
  apply get_assignments_outcome in E4 as [[g4 ->] H4].
  destruct r4 as [schools|e4].
  2: { intros [= <- <-]. left. exists e4, g4. auto 10. }
  unfold bind at 1. unfold modify at 1.
  intros Hloop. right. exists hhnum, g4, (mkIterators progs residences offices schools).
  split; [reflexivity|]. exact Hloop.
Qed.

(** *** Counting the members *)

Lemma members_added_zero w : members_added 0 0 w w.
Proof. unfold members_added, same_frequencies. repeat split; lia. Qed.

Lemma members_added_trans a c a' c' w w1 w2 :
  members_added a c w w1 -> members_added a' c' w1 w2 ->
  members_added (a + a') (c + c') w w2.
Proof.
  unfold members_added, same_frequencies.
  intros (? & ? & ? & ? & ?) (? & ? & ? & ? & ?). repeat split; try lia; congruence.
Qed.

Lemma add_household_members_added size fleet demand w household w' :
  add_household size fleet demand w = (Ok household, w') ->
  members_added (Z.to_nat (workers_of size)) (Z.to_nat (students_of size)) w w'.
Proof.
  intros [(E & _)
         | (res & prog & ads & chs & its' & -> & _ & _ & _ & _ & _ & _ & _ & Ha & Hc)
         ]%add_household_spec; [discriminate|].
  unfold members_added, same_frequencies, with_household. simpl.
  rewrite !length_app, !length_fmap. repeat split; lia.
Qed.

(** A loop whose passes each add their counts of members, when it
    completes. *)
Lemma for_each_members {A} (body : A -> M unit) (ca cc : A -> nat) (ok : world -> Prop)
    (l : list A) :
  (forall x w w', x ∈ l -> ok w -> body x w = (Ok tt, w') ->
     members_added (ca x) (cc x) w w') ->
  (forall a c w w', ok w -> members_added a c w w' -> ok w') ->
  forall w w', ok w -> for_each l body w = (Ok tt, w') ->
    members_added (sum_list (ca <$> l)) (sum_list (cc <$> l)) w w'.
Proof.
  intros Hbody Hok. induction l as [|x l IH]; intros w w' Hw; simpl.
  - intros [= <-]. apply members_added_zero.
  - unfold bind. destruct (body x w) as [[[]|e1] w1] eqn:E1; [|discriminate].
    apply Hbody in E1; [|apply list_elem_of_here|exact Hw].
    intros Hl. apply IH in Hl.
    + eapply members_added_trans; eauto.
    + intros y v v' Hy. apply Hbody. apply list_elem_of_further, Hy.
    + eapply Hok; eauto.
Qed.

Lemma sum_list_const {A} (n : nat) (l : list A) :
  sum_list ((fun _ => n) <$> l) = (length l * n)%nat.
Proof. induction l as [|x l IH]; simpl; [reflexivity | f_equal; exact IH]. Qed.

Lemma ok_frequencies_members sizes n_row n_col a c w w' :
  ok_frequencies sizes n_row n_col w -> members_added a c w w' ->
  ok_frequencies sizes n_row n_col w'.
Proof.
  unfold ok_frequencies, covers, members_added, same_frequencies.
  intros [[? ?] ?] (_ & _ & _ & -> & ->). auto.
Qed.

Lemma households_of_cell_members sizes table demand i j x n w w' :
  cell table i j = Some x -> int_round x = Ok n ->
  ok_frequencies sizes (S i) (S j) w ->
  households_of_cell table demand (i, j) w = (Ok tt, w') ->
  members_added (Z.to_nat n * Z.to_nat (workers_of (size_of_column sizes j)))
                (Z.to_nat n * Z.to_nat (students_of (size_of_column sizes j))) w w'.
Proof.
  intros Hcell Hround Hok. unfold households_of_cell, cell in *.
  destruct (table !! i) as [row|] eqn:Hrow; [|discriminate]. simpl in Hcell.
  unfold bind at 1. unfold getitem at 1. rewrite Hrow. unfold ret at 1.
  unfold bind at 1. unfold getitem at 1. rewrite Hcell. unfold ret at 1.
  unfold bind at 1. unfold lift. rewrite Hround.
  intros Hloop.
  eapply (for_each_members _
            (fun _ => Z.to_nat (workers_of (size_of_column sizes j)))
            (fun _ => Z.to_nat (students_of (size_of_column sizes j)))
            (ok_frequencies sizes (S i) (S j))) in Hloop.
  - rewrite !sum_list_const, length_xrange in Hloop. exact Hloop.
  - clear. intros _ w w' _ [[Hi Hj] Hsz].
    unfold bind at 1. unfold bind at 1. unfold getitem at 1.
    destruct (lookup_lt_is_Some_2 (size_freq (w_self w)) j) as [sz Esz]; [lia|].
    rewrite Esz.
    unfold ret at 1. unfold bind at 1. unfold getitem at 1.
    destruct (lookup_lt_is_Some_2 (fleet_freq (w_self w)) i) as [fl ->]; [lia|].
    unfold ret at 1. unfold bind at 1.
    destruct (add_household sz.1 fl.1 demand w) as [[h|e] w1] eqn:E; [|discriminate].
    intros [= <-]. apply add_household_members_added in E.
    unfold size_of_column. rewrite <- Hsz, (list_lookup_total_correct _ _ _ Esz). exact E.
  - intros a c v v'. apply ok_frequencies_members.
  - exact Hok.
Qed.

Lemma cells_loop_members sizes n_row n_col table demand w w' :
  (forall i j, (i < n_row)%nat -> (j < n_col)%nat ->
     exists x n, cell table i j = Some x /\ int_round x = Ok n) ->
  ok_frequencies sizes n_row n_col w ->
  for_each (ndrange n_row n_col) (households_of_cell table demand) w = (Ok tt, w') ->
  members_added (adults_asked sizes n_row n_col table)
                (children_asked sizes n_row n_col table) w w'.
Proof.
  intros Hcells Hok Hloop.
  eapply (for_each_members _
            (fun ij => Z.to_nat (rounded_cell table ij)
                       * Z.to_nat (workers_of (size_of_column sizes ij.2)))%nat
            (fun ij => Z.to_nat (rounded_cell table ij)
                       * Z.to_nat (students_of (size_of_column sizes ij.2)))%nat
            (ok_frequencies sizes n_row n_col)) in Hloop; [exact Hloop | | | exact Hok].
  - intros [i j] v v1 [Hi Hj]%elem_of_ndrange [[Hr Hc] Hsz] Hrun.
    destruct (Hcells i j Hi Hj) as (x & n & Hx & Hn).
    replace (rounded_cell table (i, j)) with n
      by (unfold rounded_cell; simpl; rewrite Hx, Hn; reflexivity).
    eapply (households_of_cell_members sizes table demand i j x n); eauto.
    unfold ok_frequencies, covers. split; [lia|exact Hsz].
  - intros a c v v'. apply ok_frequencies_members.
Qed.

(** *** More rows than columns *)

Lemma proportional_fit_all_nan fuel row_sum col_sum tolerance :
  Np.scalar_eqb (Np.sum1 row_sum) (Np.sum1 col_sum) = true ->
  (tolerance <? infinity)%float = true ->
  (1 <= Np.size col_sum < Np.size row_sum)%nat ->
  _proportional_fit (S fuel) row_sum col_sum tolerance
  = Some (Ok (replicate (Np.size row_sum) (replicate (Np.size col_sum) nan))).
Proof.
  intros Heq Htol Hsize. unfold _proportional_fit. rewrite Heq.
  rewrite <- !length_to_float64 in *.
  set (R := Np.to_float64 row_sum) in *. set (C := Np.to_float64 col_sum) in *.
  simpl. rewrite Htol, fit_step_all_nan by lia.
  rewrite row_error_all_nan by lia.
  destruct fuel; simpl; rewrite ltb_nan_r; reflexivity.
Qed.

Lemma sum_all_nan n_row n_col :
  (1 <= n_row)%nat -> (1 <= n_col)%nat ->
  Np.sum_all (replicate n_row (replicate n_col nan)) = nan.
Proof.
  intros Hr Hc. unfold Np.sum_all. apply fsum_nan.
  apply (cell_in_concat _ 0 0). unfold cell.
  rewrite lookup_replicate_2 by lia. simpl. apply lookup_replicate_2. lia.
Qed.
End CreateMore.

(** X14. The only errors that [create_households] raises are
    [StopIteration], [KeyError], [ValueError], [OverflowError] and
    [AssertionError] (never an [IndexError]), and unless the error is
    [StopIteration] the call has created nothing: the heap, the population
    and the iterators are as before; only random numbers were drawn. *)
Theorem create_households_errors fuel demand w e w' :
  create_households fuel demand w = Some (Raise e, w') ->
  (e = StopIteration \/ e = KeyError \/ e = ValueError \/ e = OverflowError
   \/ exists msg, e = AssertionError msg)
  /\ (e <> StopIteration ->
      w_heap w' = w_heap w /\ w_self w' = w_self w /\ w_iter w' = w_iter w
      /\ w_land w' = w_land w).
Proof.
  unfold create_households.
  destruct (_proportional_fit _ _ _ _) as [[T|e0]|] eqn:Hfit; [| |discriminate].
  2: { intros [= <- <-]. apply proportional_fit_raise in Hfit as ->. split; eauto 10. }
  intros [= Hrun].
  pose proof (proportional_fit_table _ _ _ _ _ Hfit) as [Hshape _].
  apply households_of_table_prelude in Hrun
    as [(e1 & g & [= <-] & -> & He) | (hhnum & g & its & Hround & Hloop)].
  - split; [intuition|]. intros _. simpl. auto.
  - apply cells_loop_added in Hloop as [-> _].
    + split; [auto|]. intros []. reflexivity.
    + eapply cells_round_any; eassumption.
    + rewrite !size_array, !length_fmap. unfold covers. simpl. lia.
Qed.

Lemma create_households_errors_witness :
  exists w',
    create_households 9 sample_demand (sample_world [(1, 2); (2, 3)] [(0, 5); (1, 5)])
    = Some (Raise (AssertionError unequal_subsums), w')
    /\ w_heap w' = [] /\ w_iter w' = mkIterators [] [] [] [].
Proof.
  eassert (E : create_households 9 sample_demand
                 (sample_world [(1, 2); (2, 3)] [(0, 5); (1, 5)]) = Some (Raise _, _))
    by (vm_compute; reflexivity).
  eexists. split; [exact E|].
  destruct (create_households_errors 9 sample_demand _ _ _ E) as [_ Hsame].
  destruct (Hsame ltac:(discriminate)) as (Hh & _ & Hi & _). split; [exact Hh | exact Hi].
Defined.

(** X15. A call of [create_households] that completes has created, for
    each household of each cell [(i, j)] of the fitted table, the adults and
    the children of a household of the size of column [j]: the population
    has [adults_asked] more adults, [children_asked] more children, as many
    more individuals as both together, and [households_asked] more
    households. *)
Theorem create_households_members fuel demand w w' :
  create_households fuel demand w = Some (Ok tt, w') ->
  let sizes := size_freq (w_self w) in
  let n_row := length (fleet_freq (w_self w)) in
  let n_col := length sizes in
  exists T,
    _proportional_fit fuel (Np.array (fleet_freq (w_self w)).*2) (Np.array sizes.*2)
                      default_tolerance = Some (Ok T)
    /\ length (adults (w_self w'))
       = (length (adults (w_self w)) + adults_asked sizes n_row n_col T)%nat
    /\ length (children (w_self w'))
       = (length (children (w_self w)) + children_asked sizes n_row n_col T)%nat
    /\ length (individuals (w_self w'))
       = (length (individuals (w_self w)) + adults_asked sizes n_row n_col T
          + children_asked sizes n_row n_col T)%nat
    /\ length (households (w_self w'))
       = (length (households (w_self w)) + households_asked n_row n_col T)%nat.
Proof.
  unfold create_households. cbv zeta.
  destruct (_proportional_fit _ _ _ _) as [[T|e0]|] eqn:Hfit; [|discriminate|discriminate].
  intros [= Hrun]. exists T. split; [reflexivity|].
  pose proof (proportional_fit_table _ _ _ _ _ Hfit) as [Hshape _].
  rewrite !size_array, !length_fmap in Hshape, Hrun.
  apply households_of_table_prelude in Hrun
    as [(e1 & g & [=] & _) | (hhnum & g & its & Hround & Hloop)].
  pose proof (cells_round_any _ _ _ _ Hshape Hround) as Hcells.
  pose proof Hloop as Hloop'.
  apply (cells_loop_members (size_freq (w_self w))) in Hloop; [|exact Hcells|].
  2: { unfold ok_frequencies, covers. simpl. split; [lia|reflexivity]. }
  apply cells_loop_added in Hloop'; [|exact Hcells|unfold covers; simpl; lia].
  destruct Hloop as (Ha & Hc & Hi & _). destruct Hloop' as (_ & Hh & _).
  simpl in Ha, Hc, Hi, Hh. auto.
Qed.

Lemma create_households_members_witness :
  exists w' T,
    create_households 9 sample_demand sample_world_long = Some (Ok tt, w')
    /\ _proportional_fit 9 (Np.array [4; 1; 2]) (Np.array [1; 2; 4]) default_tolerance
       = Some (Ok T)
    /\ length (adults (w_self w'))
       = (0 + adults_asked [(1, 1); (2, 2); (3, 4)]%Z 3 3 T)%nat
    /\ length (children (w_self w'))
       = (0 + children_asked [(1, 1); (2, 2); (3, 4)]%Z 3 3 T)%nat.
Proof.
  eassert (E : create_households 9 sample_demand sample_world_long = Some (Ok tt, _))
    by (vm_compute; reflexivity).
  destruct (create_households_members 9 sample_demand sample_world_long _ E)
    as (T & Hfit & Ha & Hc & _).
  eexists. exists T. split; [exact E|]. split; [exact Hfit|]. split; [exact Ha | exact Hc].
Defined.

(** X16. With more fleet categories than household-size categories (at
    least one of the latter, and equal totals) [create_households] raises
    [ValueError] and creates nothing: the fitted table holds only NaNs, and
    [int(round(table.sum()))] is refused. *)
Theorem create_households_more_fleets_than_sizes fuel demand w :
  (1 <= length (size_freq (w_self w)) < length (fleet_freq (w_self w)))%nat ->
  Np.scalar_eqb (Np.sum1 (Np.array (fleet_freq (w_self w)).*2))
                (Np.sum1 (Np.array (size_freq (w_self w)).*2)) = true ->
  create_households (S fuel) demand w = Some (Raise ValueError, w).
Proof.
  intros Hlen Heq. unfold create_households.
  rewrite proportional_fit_all_nan; [|exact Heq|reflexivity|].
  2: { rewrite !size_array, !length_fmap. exact Hlen. }
  rewrite !size_array, !length_fmap.
  unfold households_of_table. unfold bind at 1. unfold lift at 1.
  rewrite sum_all_nan by lia. reflexivity.
Qed.

Lemma create_households_more_fleets_than_sizes_witness :
  create_households 1 sample_demand (sample_world [(1, 4); (2, 6)] [(0, 5); (1, 3); (2, 2)])
  = Some (Raise ValueError, sample_world [(1, 4); (2, 6)] [(0, 5); (1, 3); (2, 2)]).
Proof.
  apply (create_households_more_fleets_than_sizes 0 sample_demand
           (sample_world [(1, 4); (2, 6)] [(0, 5); (1, 3); (2, 2)])).
  - vm_compute. lia.
  - vm_compute. reflexivity.
Defined.

(** ** The constructor *)

Global Instance pair_le_total : Total pair_le.
Proof. intros [a1 a2] [b1 b2]. unfold pair_le. simpl. lia. Qed.
Global Instance pair_le_trans : Transitive pair_le.
Proof. intros [a1 a2] [b1 b2] [c1 c2]. unfold pair_le. simpl. lia. Qed.
Global Instance pair_le_antisymm : AntiSymm eq pair_le.
Proof.
  intros [a1 a2] [b1 b2]. unfold pair_le. simpl. intros Hab Hba.
  f_equal; lia.
Qed.

Lemma merge_sort_pair_le_Permutation (l l' : list (Z * Z)) :
  l ≡ₚ l' -> merge_sort pair_le l = merge_sort pair_le l'.
Proof.
  intros Hp. apply (StronglySorted_unique pair_le).
  - apply StronglySorted_merge_sort; apply _.
  - apply StronglySorted_merge_sort; apply _.
  - rewrite !merge_sort_Permutation. exact Hp.
Qed.

(** X17. [Population.__init__] sorts its two frequency lists, so that
    the populations built from lists that agree up to the order of their
    entries are the same. *)
Theorem Population_init_order_independent size_freq size_freq' fleet_freq fleet_freq'
    prog_freq :
  size_freq ≡ₚ size_freq' -> fleet_freq ≡ₚ fleet_freq' ->
  Population_init size_freq fleet_freq prog_freq
  = Population_init size_freq' fleet_freq' prog_freq.
Proof.
  intros Hs Hf. unfold Population_init.
  rewrite (merge_sort_pair_le_Permutation _ _ Hs), (merge_sort_pair_le_Permutation _ _ Hf).
  reflexivity.
Qed.

Lemma Population_init_order_independent_witness :
  Population_init [(3, 4); (1, 1); (2, 2)] [(1, 1); (0, 4)] []
  = Population_init [(1, 1); (2, 2); (3, 4)] [(0, 4); (1, 1)] [].
Proof.
  apply Population_init_order_independent.
  - exact (Permutation_cons_append [(1, 1); (2, 2)] (3, 4)).
  - apply Permutation_swap.
Defined.
